(** * CycleTLS (package cycletls, index.go): request construction, dispatch
      and the worker pool.

    A shallow embedding of [index.go].  The Go functions are written in a
    small state-and-abort monad over a [World] that holds what the Go code
    shares by reference: the heap of transport clients ([*http.Client] values
    are addresses into it), the store of client-cache maps (Go maps are
    references), the log, the channels' traffic, which channels are closed
    and which have a goroutine waiting to receive, and the counter of map
    [range] statements (Go leaves the iteration order of a map open, and it
    may differ from one [range] to the next).

    What [index.go] calls but does not define (the Go standard library, the
    fhttp package, and [newClient], [parseError], [DecompressBody] of the
    package's other files) is a field of the class [GoLib]. *)

From Stdlib Require Import ZArith Ascii String.
From stdpp Require Import base option list strings gmap functions relations.

Open Scope string_scope.
Open Scope list_scope.

(** ** Types declared outside index.go *)

Class GoTypes := {
  error : Type;              (* Go's [error] interface values *)
  Cookie : Type;             (* the package's Cookie struct *)
  http_Client : Type;        (* fhttp's Client, as built by [newClient] *)
  http_NewRequestT : Type;   (* what [http.NewRequest] fills in, Header apart *)
  io_ReadCloser : Type;      (* a response body stream *)
}.

(** A pointer is an address in the world's heap. *)
Abbreviation ptr := nat (only parsing).
(** A channel is named by the order of its creation. *)
Abbreviation chan := nat (only parsing).
(** A Go map used by reference is named by the order of its creation. *)
Abbreviation mapref := nat (only parsing).

(** ** The structs of index.go (lines 12-64) *)

Module Options.
Record t `{GoTypes} := mk {
  URL : string;
  Method : string;
  Headers : gmap string string;
  Body : string;
  Ja3 : string;
  UserAgent : string;
  Proxy : string;
  Cookies : list Cookie;
  Timeout : Z;
  DisableRedirect : bool;
  HeaderOrder : list string;
  OrderAsProvided : bool;
}.

(** [options.URL = URL] and [options.Method = Method] on the callee's copy. *)
Definition set_URL `{GoTypes} (v : string) (o : t) : t :=
  mk _ v (Method o) (Headers o) (Body o) (Ja3 o) (UserAgent o) (Proxy o)
     (Cookies o) (Timeout o) (DisableRedirect o) (HeaderOrder o)
     (OrderAsProvided o).
Definition set_Method `{GoTypes} (v : string) (o : t) : t :=
  mk _ (URL o) v (Headers o) (Body o) (Ja3 o) (UserAgent o) (Proxy o)
     (Cookies o) (Timeout o) (DisableRedirect o) (HeaderOrder o)
     (OrderAsProvided o).
End Options.

Module cycleTLSRequest.
Record t `{GoTypes} := mk {
  RequestID : string;
  Options : Options.t;
}.
End cycleTLSRequest.

(** The [browser] struct is declared in another file of the package; index.go
    fills these three fields (lines 133-137). *)
Module browser.
Record t `{GoTypes} := mk {
  JA3 : string;
  UserAgent : string;
  Cookies : list Cookie;
}.
End browser.

(** [http.Header] is [map[string][]string]. *)
Abbreviation http_Header := (gmap string (list string)).

Module Request.
Record t `{GoTypes} := mk {
  base : http_NewRequestT;
  Header : http_Header;
}.
End Request.

Module fullRequest.
Record t `{GoTypes} := mk {
  req : Request.t;
  client : ptr;
  options : cycleTLSRequest.t;
}.
End fullRequest.

Module Response.
Record t := mk {
  RequestID : string;
  Status : Z;
  Body : string;
  Headers : gmap string string;   (* a nil map reads as the empty map *)
}.
(** The zero value of the struct: what the named result [response] holds
    until it is assigned. *)
Definition zero : t := mk "" 0 "" ∅.
End Response.

Module CycleTLS.
Record t := mk {
  ReqChan : option chan;               (* None: the nil channel *)
  RespChan : option chan;
  cacheClients : option mapref;        (* None: the nil map *)
}.
End CycleTLS.

(** What index.go reads of a [*http.Response]. *)
Module http_Response.
Record t `{GoTypes} := mk {
  StatusCode : Z;
  Header : http_Header;
  Body : io_ReadCloser;
}.
End http_Response.

(** [url.Parse]'s result; index.go reads the Host field only. *)
Module url_URL.
Record t := mk { Host : string }.
End url_URL.

(** The result struct of [parseError] (declared in another file). *)
Module errorMessage.
Record t := mk { StatusCode : Z; ErrorMsg : string }.
End errorMessage.

(** ** The world and the monad *)

Record World `{GoTypes} := mkWorld {
  clients : list http_Client;            (* heap of constructed clients *)
  caches : mapref → gmap string ptr;     (* contents of the cache maps *)
  ncaches : nat;                         (* cache maps made so far *)
  nchans : nat;                          (* channels made so far *)
  pools : list (chan * chan);            (* worker pools started *)
  submitted : list (chan * fullRequest.t);   (* values sent on request channels *)
  delivered : list (chan * Response.t);      (* values sent on response channels *)
  logs : list string;                    (* lines written by package log *)
  ranges : nat;                          (* map range statements executed *)
  trips : nat;                           (* round trips made on the network *)
  closed : gset chan;                    (* channels that were closed *)
  receiving : gset chan;                 (* channels on which another goroutine
                                            waits to receive *)
}.

Inductive panic_value `{GoTypes} :=
  | PanicError (e : error)               (* panic(err) *)
  | RuntimeError (msg : string).         (* a run-time panic *)

Inductive outcome `{GoTypes} (A : Type) :=
  | Returned (a : A)
  | Panicked (v : panic_value)
  | Exited (code : Z)                    (* os.Exit, reached through log.Fatal *)
  | Blocked.                             (* the goroutine blocks for ever *)
Arguments Returned {_ _} a.
Arguments Panicked {_ _} v.
Arguments Exited {_ _} code.
Arguments Blocked {_ _}.

Definition M `{GoTypes} (A : Type) : Type := World → outcome A * World.

Definition ret `{GoTypes} {A} (a : A) : M A := λ w, (Returned a, w).

Definition bind `{GoTypes} {A B} (m : M A) (k : A → M B) : M B :=
  λ w, match m w with
       | (Returned a, w') => k a w'
       | (Panicked v, w') => (Panicked v, w')
       | (Exited c, w') => (Exited c, w')
       | (Blocked, w') => (Blocked, w')
       end.

Notation "x ←- m ; k" := (bind m (λ x, k))
  (at level 20, m at level 100, k at level 200, right associativity,
   format "'[v' x  ←-  m ; '/' k ']'").
Notation "m ;;- k" := (bind m (λ _, k))
  (at level 100, k at level 200, right associativity,
   format "'[v' m  ;;- '/' k ']'").

Definition panic `{GoTypes} {A} (v : panic_value) : M A := λ w, (Panicked v, w).
Definition os_Exit `{GoTypes} {A} (code : Z) : M A := λ w, (Exited code, w).
Definition block `{GoTypes} {A} : M A := λ w, (Blocked, w).

Section WorldOps.
Context `{GoTypes}.

Definition set_clients (f : list http_Client → list http_Client) (w : World) : World :=
  mkWorld _ (f (clients w)) (caches w) (ncaches w) (nchans w) (pools w)
          (submitted w) (delivered w) (logs w) (ranges w) (trips w)
          (closed w) (receiving w).
Definition set_caches (f : (mapref → gmap string ptr) → (mapref → gmap string ptr))
    (w : World) : World :=
  mkWorld _ (clients w) (f (caches w)) (ncaches w) (nchans w) (pools w)
          (submitted w) (delivered w) (logs w) (ranges w) (trips w)
          (closed w) (receiving w).
Definition set_ncaches (f : nat → nat) (w : World) : World :=
  mkWorld _ (clients w) (caches w) (f (ncaches w)) (nchans w) (pools w)
          (submitted w) (delivered w) (logs w) (ranges w) (trips w)
          (closed w) (receiving w).
Definition set_nchans (f : nat → nat) (w : World) : World :=
  mkWorld _ (clients w) (caches w) (ncaches w) (f (nchans w)) (pools w)
          (submitted w) (delivered w) (logs w) (ranges w) (trips w)
          (closed w) (receiving w).
Definition set_pools (f : list (chan * chan) → list (chan * chan)) (w : World) : World :=
  mkWorld _ (clients w) (caches w) (ncaches w) (nchans w) (f (pools w))
          (submitted w) (delivered w) (logs w) (ranges w) (trips w)
          (closed w) (receiving w).
Definition set_submitted
    (f : list (chan * fullRequest.t) → list (chan * fullRequest.t)) (w : World) : World :=
  mkWorld _ (clients w) (caches w) (ncaches w) (nchans w) (pools w)
          (f (submitted w)) (delivered w) (logs w) (ranges w) (trips w)
          (closed w) (receiving w).
Definition set_delivered
    (f : list (chan * Response.t) → list (chan * Response.t)) (w : World) : World :=
  mkWorld _ (clients w) (caches w) (ncaches w) (nchans w) (pools w)
          (submitted w) (f (delivered w)) (logs w) (ranges w) (trips w)
          (closed w) (receiving w).
Definition set_logs (f : list string → list string) (w : World) : World :=
  mkWorld _ (clients w) (caches w) (ncaches w) (nchans w) (pools w)
          (submitted w) (delivered w) (f (logs w)) (ranges w) (trips w)
          (closed w) (receiving w).
Definition set_ranges (f : nat → nat) (w : World) : World :=
  mkWorld _ (clients w) (caches w) (ncaches w) (nchans w) (pools w)
          (submitted w) (delivered w) (logs w) (f (ranges w)) (trips w)
          (closed w) (receiving w).
Definition set_trips (f : nat → nat) (w : World) : World :=
  mkWorld _ (clients w) (caches w) (ncaches w) (nchans w) (pools w)
          (submitted w) (delivered w) (logs w) (ranges w) (f (trips w))
          (closed w) (receiving w).
Definition set_closed (f : gset chan → gset chan) (w : World) : World :=
  mkWorld _ (clients w) (caches w) (ncaches w) (nchans w) (pools w)
          (submitted w) (delivered w) (logs w) (ranges w) (trips w)
          (f (closed w)) (receiving w).
Definition set_receiving (f : gset chan → gset chan) (w : World) : World :=
  mkWorld _ (clients w) (caches w) (ncaches w) (nchans w) (pools w)
          (submitted w) (delivered w) (logs w) (ranges w) (trips w)
          (closed w) (f (receiving w)).

(** [log.Print] and [log.Println]: one line of log output. *)
Definition log_Print (line : string) : M unit :=
  λ w, (Returned tt, set_logs (λ l, l ++ [line]) w).
Definition log_Println (line : string) : M unit := log_Print line.

(** [new]: a client value gets a fresh address. *)
Definition alloc_client (c : http_Client) : M ptr :=
  λ w, (Returned (length (clients w)), set_clients (λ h, h ++ [c]) w).

(** [*p] on a client pointer; nil (an address outside the heap) panics. *)
Definition deref_client (p : ptr) : M http_Client :=
  λ w, match clients w !! p with
       | Some c => (Returned c, w)
       | None => (Panicked (RuntimeError
                    "invalid memory address or nil pointer dereference"), w)
       end.

(** [make(map[string]*http.Client)]. *)
Definition make_cache : M mapref :=
  λ w, (Returned (ncaches w),
        set_ncaches S (set_caches (λ s, <[ncaches w := ∅]> s) w)).

(** [c, ok := m[k]]: a nil map has no entry. *)
Definition cache_lookup (m : option mapref) (k : string) : M (option ptr) :=
  λ w, match m with
       | None => (Returned None, w)
       | Some r => (Returned (caches w r !! k), w)
       end.

(** [m[k] = c]: assignment to an entry of a nil map panics. *)
Definition cache_assign (m : option mapref) (k : string) (c : ptr) : M unit :=
  λ w, match m with
       | None => (Panicked (RuntimeError "assignment to entry in nil map"), w)
       | Some r => (Returned tt, set_caches (λ s, <[r := <[k := c]> (s r)]> s) w)
       end.

(** [make(chan T)]. *)
Definition make_chan : M chan :=
  λ w, (Returned (nchans w), set_nchans S w).

(** [ch <- v] on an unbuffered channel: a send on the nil channel blocks
    for ever, a send on a closed channel panics, and a send on an open
    channel goes through when another goroutine waits to receive and
    blocks otherwise. *)
Definition send_request (ch : option chan) (v : fullRequest.t) : M unit :=
  λ w, match ch with
       | None => (Blocked, w)
       | Some c =>
           if decide (c ∈ closed w)
           then (Panicked (RuntimeError "send on closed channel"), w)
           else if decide (c ∈ receiving w)
           then (Returned tt, set_submitted (λ l, l ++ [(c, v)]) w)
           else (Blocked, w)
       end.
Definition send_response (ch : chan) (v : Response.t) : M unit :=
  λ w, if decide (ch ∈ closed w)
       then (Panicked (RuntimeError "send on closed channel"), w)
       else if decide (ch ∈ receiving w)
       then (Returned tt, set_delivered (λ l, l ++ [(ch, v)]) w)
       else (Blocked, w).

(** [go workerPool(reqChan, respChan)]: the workers it starts come to wait
    at their receive on [reqChan]. *)
Definition go_workerPool (reqChan respChan : chan) : M unit :=
  λ w, (Returned tt,
        set_receiving (λ R, {[reqChan]} ∪ R)
          (set_pools (λ l, l ++ [(reqChan, respChan)]) w)).
End WorldOps.

(** ** What index.go calls but does not define *)

Class GoLib `{GoTypes} := {
  Error : error → string;                              (* err.Error() *)
  strings_ToLower : string → string;
  strings_ToUpper : string → string;
  url_Parse : string → error + url_URL.t;
  (* http.NewRequest(method, url, strings.NewReader(body)) *)
  http_NewRequest : string → string → string → error + http_NewRequestT;
  http_HeaderOrderKey : string;
  http_PHeaderOrderKey : string;
  (* Header.Set stores under textproto.CanonicalMIMEHeaderKey(key) *)
  textproto_CanonicalMIMEHeaderKey : string → string;
  (* the answer of the network to the n-th round trip *)
  client_Do : nat → http_Client → Request.t → error + http_Response.t;
  ioutil_ReadAll : io_ReadCloser → error + string;
  (* the package's own helpers, defined in other files *)
  newClient : browser.t → Z → bool → string → string → error + http_Client;
  parseError : error → errorMessage.t;
  DecompressBody : string → list string → list string → string;
  (* the order in which the n-th range statement visits a map *)
  map_range : ∀ V : Type, nat → gmap string V → list (string * V);
}.

(** Every [range] over a map visits each entry once, in some order. *)
Definition range_visits_all `{GoLib} : Prop :=
  ∀ (V : Type) (n : nat) (m : gmap string V), map_range V n m ≡ₚ map_to_list m.

(** [strings.Join(elems, sep)]. *)
Definition strings_Join (elems : list string) (sep : string) : string :=
  String.concat sep elems.

(** The escape [\n] of a Go string literal. *)
Definition newline : string := String "010"%char "".

(** The built-in precedence list (lines 172-199). *)
Definition defaultHeaderOrder : list string :=
  [ "host"; "connection"; "cache-control"; "device-memory"; "viewport-width";
    "rtt"; "downlink"; "ect"; "sec-ch-ua"; "sec-ch-ua-mobile";
    "sec-ch-ua-full-version"; "sec-ch-ua-arch"; "sec-ch-ua-platform";
    "sec-ch-ua-platform-version"; "sec-ch-ua-model";
    "upgrade-insecure-requests"; "user-agent"; "accept"; "sec-fetch-site";
    "sec-fetch-mode"; "sec-fetch-user"; "sec-fetch-dest"; "referer";
    "accept-encoding"; "accept-language"; "cookie" ].

(** The pseudo-header order (line 219). *)
Definition pseudoHeaderOrder : list string :=
  [":method"; ":authority"; ":scheme"; ":path"].

(** The size of the pool (line 263). *)
Definition workerPool_size : nat := 100.

Section Program.
Context `{GoLib}.

(** [for k, v := range m]: the entries in the order of this execution. *)
Definition range_map {V : Type} (m : gmap string V) : M (list (string * V)) :=
  λ w, (Returned (map_range V (ranges w) m), set_ranges S w).

(** [log.Fatal(err)]: write the line, then [os.Exit(1)]. *)
Definition log_Fatal {A} (err : error) : M A :=
  log_Print (Error err) ;;- os_Exit 1.

(** [h.Set(key, value)] of fhttp's Header. *)
Definition Header_Set (h : http_Header) (key value : string) : http_Header :=
  <[textproto_CanonicalMIMEHeaderKey key := [value]]> h.

(** *** dispatcher (lines 66-101) *)

(** [resp, err := res.client.Do(res.req)]. *)
Definition round_trip (c : http_Client) (r : Request.t)
    : M (error + http_Response.t) :=
  λ w, (Returned (client_Do (trips w) c r), set_trips S w).

(** Lines 90-98, on the entries [hs] of [resp.Header] in visiting order. *)
Definition flatten_headers (hs : list (string * list string)) : gmap string string :=
  foldl (λ headers '(name, values),
           if decide (name = "Set-Cookie")
           then <[name := strings_Join values "/,/"]> headers
           else foldl (λ headers value, <[name := value]> headers) headers values)
        ∅ hs.

Definition dispatcher (res : fullRequest.t) : M (Response.t * option error) :=
  c ←- deref_client (fullRequest.client res);
  r ←- round_trip c (fullRequest.req res);
  match r with
  | inl err =>
      let parsedError := parseError err in
      let headers : gmap string string := ∅ in
      ret (Response.mk (cycleTLSRequest.RequestID (fullRequest.options res))
                       (errorMessage.StatusCode parsedError)
                       (errorMessage.ErrorMsg parsedError +:+ "-> " +:+ newline
                          +:+ Error err)
                       headers, None)
  | inr resp =>
      let encoding := default [] (http_Response.Header resp !! "Content-Encoding") in
      let content := default [] (http_Response.Header resp !! "Content-Type") in
      match ioutil_ReadAll (http_Response.Body resp) with
      | inl err =>
          log_Print ("Parse Bytes" +:+ Error err) ;;-
          ret (Response.zero, Some err)
      | inr bodyBytes =>
          let Body := DecompressBody bodyBytes encoding content in
          hs ←- range_map (http_Response.Header resp);
          let headers := flatten_headers hs in
          ret (Response.mk (cycleTLSRequest.RequestID (fullRequest.options res))
                           (http_Response.StatusCode resp) Body headers, None)
      end
  end.

(** *** processRequest (lines 132-236) *)

(** Lines 162-200: the precedence list in force. *)
Definition effectiveHeaderOrder (HeaderOrder : list string) : list string :=
  if bool_decide (0 < length HeaderOrder)
  then foldl (λ headerOrder v,
                let lowercaseKey := strings_ToLower v in
                headerOrder ++ [lowercaseKey]) [] HeaderOrder
  else [] ++ defaultHeaderOrder.

(** Lines 206-212: one pass over the headers for one [key]. *)
Definition match_key (key : string) (hs : list (string * string))
    (st : gmap string string * list string) : gmap string string * list string :=
  foldl (λ '(headermap, headerorderkey) '(k, v),
           let lowercasekey := strings_ToLower k in
           if decide (key = lowercasekey)
           then (<[k := v]> headermap, headerorderkey ++ [lowercasekey])
           else (headermap, headerorderkey))
        st hs.

(** Lines 205-214: for each key of the list, a fresh [range] over the
    headers. *)
Fixpoint order_loop (headerOrder : list string) (Headers : gmap string string)
    (st : gmap string string * list string)
    : M (gmap string string * list string) :=
  match headerOrder with
  | [] => ret st
  | key :: rest =>
      hs ←- range_map Headers;
      order_loop rest Headers (match_key key hs st)
  end.

(** Lines 162-214: the ordered header names. *)
Definition orderHeaders (HeaderOrder : list string) (Headers : gmap string string)
    : M (list string) :=
  let headerOrder := effectiveHeaderOrder HeaderOrder in
  st ←- order_loop headerOrder Headers (∅, []);
  ret st.2.

(** Lines 228-232, on the entries [hs] of the caller's headers. *)
Definition append_headers (h : http_Header) (hs : list (string * string)) : http_Header :=
  foldl (λ h '(k, v),
           if decide (k ≠ "Content-Length") then Header_Set h k v else h)
        h hs.

Definition processRequest (client : CycleTLS.t) (request : cycleTLSRequest.t)
    : M fullRequest.t :=
  let o := cycleTLSRequest.Options request in
  let browser := browser.mk _ (Options.Ja3 o) (Options.UserAgent o) (Options.Cookies o) in
  urlInfo ←- match url_Parse (Options.URL o) with
             | inl err => panic (PanicError err)
             | inr u => ret u
             end;
  cached ←- cache_lookup (CycleTLS.cacheClients client) (url_URL.Host urlInfo);
  c ←- match cached with
       | Some c => ret c
       | None =>
           c ←- match newClient browser (Options.Timeout o) (Options.DisableRedirect o)
                                (Options.UserAgent o) (Options.Proxy o) with
                | inl err => log_Fatal err
                | inr built => alloc_client built
                end;
           cache_assign (CycleTLS.cacheClients client) (url_URL.Host urlInfo) c ;;-
           ret c
       end;
  req ←- match http_NewRequest (strings_ToUpper (Options.Method o)) (Options.URL o)
                               (Options.Body o) with
         | inl err => log_Fatal err
         | inr r => ret r
         end;
  headerorderkey ←- orderHeaders (Options.HeaderOrder o) (Options.Headers o);
  let Header : http_Header :=
    <[http_HeaderOrderKey := headerorderkey]>
      (<[http_PHeaderOrderKey := pseudoHeaderOrder]> ∅) in
  u ←- match url_Parse (Options.URL o) with
       | inl err => panic (PanicError err)
       | inr u => ret u
       end;
  hs ←- range_map (Options.Headers o);
  let Header := append_headers Header hs in
  let Header := Header_Set Header "Host" (url_URL.Host u) in
  let Header := Header_Set Header "user-agent" (Options.UserAgent o) in
  ret (fullRequest.mk _ (Request.mk _ req Header) c request).

(** *** Queue and Do (lines 103-129) *)

Definition Queue (client : CycleTLS.t) (URL : string) (options : Options.t)
    (Method : string) : M unit :=
  let options := Options.set_URL URL options in
  let options := Options.set_Method Method options in
  let opt := cycleTLSRequest.mk _ "Queued Request" options in
  response ←- processRequest client opt;
  send_request (CycleTLS.ReqChan client) response.

Definition Do (client : CycleTLS.t) (URL : string) (options : Options.t)
    (Method : string) : M (Response.t * option error) :=
  let options := Options.set_URL URL options in
  let options := Options.set_Method Method options in
  let opt := cycleTLSRequest.mk _ "cycleTLSRequest" options in
  res ←- processRequest client opt;
  r ←- dispatcher res;
  match r.2 with
  | Some err =>
      log_Print ("Request Failed: " +:+ Error err) ;;-
      ret (r.1, Some err)
  | None => ret (r.1, None)
  end.

(** *** Init and the worker pool (lines 240-277) *)

Definition Init (workers : list bool) : M CycleTLS.t :=
  if bool_decide (0 < length workers) && default false (workers !! 0)
  then
    reqChan ←- make_chan;
    respChan ←- make_chan;
    go_workerPool reqChan respChan ;;-
    log_Println "Worker Pool Started" ;;-
    ret (CycleTLS.mk (Some reqChan) (Some respChan) None)
  else
    m ←- make_cache;
    ret (CycleTLS.mk None None (Some m)).

(** The body of [worker]'s loop up to the send: dispatch, log an error. *)
Definition worker_dispatch (res : fullRequest.t) : M Response.t :=
  r ←- dispatcher res;
  match r.2 with
  | Some err => log_Print ("Request Failed: " +:+ Error err)
  | None => ret tt
  end ;;-
  ret r.1.

(** One turn of the loop: [respChan <- response] closes it. *)
Definition worker_turn (respChan : chan) (res : fullRequest.t) : M unit :=
  response ←- worker_dispatch res;
  send_response respChan response.

(** [worker], on the requests this worker receives from [reqChan] until
    the channel is closed. *)
Fixpoint worker (received : list fullRequest.t) (respChan : chan) : M unit :=
  match received with
  | [] => ret tt
  | res :: rest => worker_turn respChan res ;;- worker rest respChan
  end.
End Program.

(** ** Vocabulary of the properties *)

(** The process is gone: an unrecovered panic or [os.Exit]. *)
Definition aborts `{GoTypes} {A} (o : outcome A) : Prop :=
  match o with
  | Panicked _ | Exited _ => True
  | Returned _ | Blocked => False
  end.

Section Vocabulary.
Context `{GoLib}.

(** How many entries of [Headers] have a name that lower-cases to [key]. *)
Definition matches (key : string) (Headers : gmap string string) : nat :=
  length (filter (λ kv : string * string, key = strings_ToLower kv.1)
                 (map_to_list Headers)).

(** The precedence list, each key repeated once per matching header. *)
Definition precedence_names (headerOrder : list string)
    (Headers : gmap string string) : list string :=
  headerOrder ≫= (λ key, replicate (matches key Headers) key).

(** The lower-cased names of the headers. *)
Definition lower_names (Headers : gmap string string) : gset string :=
  set_map strings_ToLower (dom Headers).

(** Every cached client pointer points into the heap. *)
Definition caches_live (w : World) : Prop :=
  ∀ (r : mapref) (host : string) (c : ptr),
    caches w r !! host = Some c → c < length (clients w).

(** World [w'] still has every cache entry and every client of [w]. *)
Definition keeps (w w' : World) : Prop :=
  (∀ (r : mapref) (host : string) (c : ptr),
     caches w r !! host = Some c → caches w' r !! host = Some c) ∧
  (∀ (p : ptr) (c : http_Client),
     clients w !! p = Some c → clients w' !! p = Some c).

(** The Header of the built request, from the ordered names [names], the
    caller's headers in visiting order [hs], the parsed URL and the
    options. *)
Definition built_Header (names : list string) (hs : list (string * string))
    (u : url_URL.t) (o : Options.t) : http_Header :=
  Header_Set
    (Header_Set
       (append_headers
          (<[http_HeaderOrderKey := names]>
             (<[http_PHeaderOrderKey := pseudoHeaderOrder]> ∅)) hs)
       "Host" (url_URL.Host u))
    "user-agent" (Options.UserAgent o).

(** The ordered names computed by a run of [orderHeaders] in world [w]. *)
Definition ordered_names_at (w : World) (o : Options.t) : list string :=
  match orderHeaders (Options.HeaderOrder o) (Options.Headers o) w with
  | (Returned names, _) => names
  | _ => []
  end.

(** [c, ok := client.cacheClients[host]]. *)
Definition cached_client (h : CycleTLS.t) (w : World) (host : string) : option ptr :=
  match CycleTLS.cacheClients h with
  | None => None
  | Some r => caches w r !! host
  end.

(** Lines 158-235, once the URL is parsed and the client [c] is chosen,
    run in world [w1]. *)
Definition finish_request (R : cycleTLSRequest.t) (u : url_URL.t) (c : ptr)
    (w1 : World) : outcome fullRequest.t * World :=
  let o := cycleTLSRequest.Options R in
  match http_NewRequest (strings_ToUpper (Options.Method o)) (Options.URL o)
                        (Options.Body o) with
  | inl err => (Exited 1, set_logs (λ l, l ++ [Error err]) w1)
  | inr req =>
      let n := length (effectiveHeaderOrder (Options.HeaderOrder o)) in
      (Returned
         (fullRequest.mk _
            (Request.mk _ req
               (built_Header (ordered_names_at w1 o)
                  (map_range string (ranges w1 + n) (Options.Headers o)) u o))
            c R),
       set_ranges (λ k, k + S n) w1)
  end.

(** What the program does to the world between two calls: any of its
    effectful steps, through any handle. *)
Inductive program_step : World → World → Prop :=
  | step_processRequest h R w fr w' :
      processRequest h R w = (Returned fr, w') → program_step w w'
  | step_dispatcher res w r w' :
      dispatcher res w = (Returned r, w') → program_step w w'
  | step_log line w w' :
      log_Print line w = (Returned tt, w') → program_step w w'
  | step_send_request ch v w w' :
      send_request ch v w = (Returned tt, w') → program_step w w'
  | step_send_response ch v w w' :
      send_response ch v w = (Returned tt, w') → program_step w w'.
End Vocabulary.

(** ** A concrete library and world, for running the program

    Stand-ins for the library functions, simple enough to evaluate.  They
    agree with Go on the inputs used in the examples: ASCII case mapping,
    canonical MIME header keys of ASCII token names, URLs of the shape
    [scheme://host/path]. *)

Module Sample.
Inductive sample_error :=
  | ErrControlCharacter    (* url.Parse: a control character in the URL *)
  | ErrMissingScheme       (* url.Parse: the URL starts with a colon *)
  | ErrBadProxy            (* newClient: the proxy URL does not parse *)
  | ErrInvalidMethod       (* http.NewRequest: invalid method *)
  | ErrConnectionRefused   (* client.Do: dial failure *)
  | ErrUnexpectedEOF.      (* ioutil.ReadAll: the body breaks off *)

Definition sample_Error (e : sample_error) : string :=
  match e with
  | ErrControlCharacter => "net/url: invalid control character in URL"
  | ErrMissingScheme => "missing protocol scheme"
  | ErrBadProxy => "invalid proxy URL"
  | ErrInvalidMethod => "net/http: invalid method"
  | ErrConnectionRefused => "connect: connection refused"
  | ErrUnexpectedEOF => "unexpected EOF"
  end.

(** The configuration a client was built from. *)
Record sample_client := mk_client {
  c_JA3 : string; c_Timeout : Z; c_DisableRedirect : bool;
  c_UserAgent : string; c_Proxy : string;
}.

(** Method, URL and body of a new request. *)
Record sample_request := mk_request {
  r_Method : string; r_URL : string; r_Body : string;
}.

#[export] Instance sample_types : GoTypes := {|
  error := sample_error;
  Cookie := string * string;
  http_Client := sample_client;
  http_NewRequestT := sample_request;
  io_ReadCloser := sample_error + string;
|}.

Definition is_upper (c : ascii) : bool :=
  (65 <=? nat_of_ascii c)%nat && (nat_of_ascii c <=? 90)%nat.
Definition is_lower (c : ascii) : bool :=
  (97 <=? nat_of_ascii c)%nat && (nat_of_ascii c <=? 122)%nat.
Definition is_digit (c : ascii) : bool :=
  (48 <=? nat_of_ascii c)%nat && (nat_of_ascii c <=? 57)%nat.
Definition to_lower (c : ascii) : ascii :=
  if is_upper c then ascii_of_nat (nat_of_ascii c + 32) else c.
Definition to_upper (c : ascii) : ascii :=
  if is_lower c then ascii_of_nat (nat_of_ascii c - 32) else c.

Fixpoint string_map (f : ascii → ascii) (s : string) : string :=
  match s with
  | EmptyString => EmptyString
  | String c r => String (f c) (string_map f r)
  end.
Fixpoint string_forallb (f : ascii → bool) (s : string) : bool :=
  match s with
  | EmptyString => true
  | String c r => f c && string_forallb f r
  end.
Fixpoint string_mem (c : ascii) (s : string) : bool :=
  match s with
  | EmptyString => false
  | String d r => bool_decide (c = d) || string_mem c r
  end.

(** textproto's validHeaderFieldByte: the token characters. *)
Definition validHeaderFieldByte (c : ascii) : bool :=
  is_upper c || is_lower c || is_digit c || string_mem c "!#$%&'*+-.^_`|~".

(** First letter and letters after a dash in upper case, the rest lower. *)
Fixpoint canonical_from (upper : bool) (s : string) : string :=
  match s with
  | EmptyString => EmptyString
  | String c r =>
      let c' := if upper then to_upper c else to_lower c in
      String c' (canonical_from (bool_decide (c' = "-"%char)) r)
  end.
Definition CanonicalMIMEHeaderKey (s : string) : string :=
  if string_forallb validHeaderFieldByte s then canonical_from true s else s.

Definition is_ctl (c : ascii) : bool :=
  (nat_of_ascii c <? 32)%nat || (nat_of_ascii c =? 127)%nat.
Fixpoint after_slashes (s : string) : option string :=
  match s with
  | EmptyString => None
  | String c r =>
      match r with
      | String d r' =>
          if bool_decide (c = "/"%char) && bool_decide (d = "/"%char)
          then Some r' else after_slashes r
      | EmptyString => None
      end
  end.
Fixpoint upto_slash (s : string) : string :=
  match s with
  | EmptyString => EmptyString
  | String c r => if bool_decide (c = "/"%char) then EmptyString
                  else String c (upto_slash r)
  end.
Definition sample_url_Parse (s : string) : sample_error + url_URL.t :=
  if negb (string_forallb (λ c, negb (is_ctl c)) s) then inl ErrControlCharacter
  else match s with
       | String ":" _ => inl ErrMissingScheme
       | _ => inr (url_URL.mk (default "" (upto_slash <$> after_slashes s)))
       end.

Definition sample_NewRequest (method url body : string)
    : sample_error + sample_request :=
  if string_forallb validHeaderFieldByte method
  then inr (mk_request method url body) else inl ErrInvalidMethod.

Definition sample_newClient (b : browser.t) (timeout : Z) (disableRedirect : bool)
    (UserAgent proxy : string) : sample_error + sample_client :=
  match proxy with
  | EmptyString => inr (mk_client (browser.JA3 b) timeout disableRedirect UserAgent proxy)
  | _ => match sample_url_Parse proxy with
         | inl _ => inl ErrBadProxy
         | inr _ => inr (mk_client (browser.JA3 b) timeout disableRedirect UserAgent proxy)
         end
  end.

(** A small network: one host refuses connections, one breaks off the
    body, every other host answers 200. *)
Definition sample_Do (n : nat) (c : sample_client) (r : Request.t)
    : sample_error + http_Response.t :=
  match sample_url_Parse (r_URL (Request.base r)) with
  | inl e => inl e
  | inr u =>
      if bool_decide (url_URL.Host u = "refused.test") then inl ErrConnectionRefused
      else if bool_decide (url_URL.Host u = "broken.test")
      then inr (http_Response.mk _ 200 {[ "Content-Type" := ["text/plain"] ]}
                                 (inl ErrUnexpectedEOF))
      else inr (http_Response.mk _ 200
                  {[ "Content-Type" := ["text/plain"];
                     "Set-Cookie" := ["a=1"; "b=2"] ]}
                  (inr "ok"))
  end.

Definition sample_parseError (e : sample_error) : errorMessage.t :=
  match e with
  | ErrConnectionRefused => errorMessage.mk 502 "syscall error: connection refused"
  | _ => errorMessage.mk 400 "bad request"
  end.

(** Even range statements visit a map in key order, odd ones backwards. *)
Definition sample_range (V : Type) (n : nat) (m : gmap string V) : list (string * V) :=
  if Nat.even n then map_to_list m else reverse (map_to_list m).

#[export] Instance sample_lib : GoLib := {|
  Error := sample_Error;
  strings_ToLower := string_map to_lower;
  strings_ToUpper := string_map to_upper;
  url_Parse := sample_url_Parse;
  http_NewRequest := sample_NewRequest;
  http_HeaderOrderKey := "Header-Order:";
  http_PHeaderOrderKey := "PHeader-Order:";
  textproto_CanonicalMIMEHeaderKey := CanonicalMIMEHeaderKey;
  client_Do := sample_Do;
  ioutil_ReadAll := λ body, body;
  newClient := sample_newClient;
  parseError := sample_parseError;
  DecompressBody := λ body _ _, body;
  map_range := sample_range;
|}.

(** The world before anything ran. *)
Definition world0 : World := mkWorld _ [] (λ _, ∅) 0 0 [] [] [] [] 0 0 ∅ ∅.

(** Options with headers, a header order, a user agent and a proxy,
    everything else at its zero value. *)
Definition options_of (headers : gmap string string) (order : list string)
    (userAgent proxy : string) : Options.t :=
  Options.mk _ "" "" headers "" "" userAgent proxy [] 0 false order false.

(** The handle of [Init()], made in [world0], and the world it leaves. *)
Definition plain_handle : CycleTLS.t := CycleTLS.mk None None (Some 0).
Definition plain_world : World :=
  mkWorld _ [] (<[0 := ∅]> (λ _, ∅)) 1 0 [] [] [] [] 0 0 ∅ ∅.

(** A handle with the two channels of a pool and a cache map, as code of
    the package can make it, in a world where those exist, the pool runs
    with workers waiting on channel 0, and the caller reads channel 1. *)
Definition pool_handle : CycleTLS.t := CycleTLS.mk (Some 0) (Some 1) (Some 0).
Definition pool_world : World :=
  mkWorld _ [] (<[0 := ∅]> (λ _, ∅)) 1 2 [(0, 1)] [] [] [] 0 0 ∅ {[0; 1]}.

(** The request Do builds from a URL, options and a method. *)
Definition request_of (id URL : string) (o : Options.t) (Method : string)
    : cycleTLSRequest.t :=
  cycleTLSRequest.mk _ id (Options.set_Method Method (Options.set_URL URL o)).

(** A library that differs in the visiting order only: always backwards. *)
Definition backwards_lib : GoLib := {|
  Error := sample_Error;
  strings_ToLower := string_map to_lower;
  strings_ToUpper := string_map to_upper;
  url_Parse := sample_url_Parse;
  http_NewRequest := sample_NewRequest;
  http_HeaderOrderKey := "Header-Order:";
  http_PHeaderOrderKey := "PHeader-Order:";
  textproto_CanonicalMIMEHeaderKey := CanonicalMIMEHeaderKey;
  client_Do := sample_Do;
  ioutil_ReadAll := λ body, body;
  newClient := sample_newClient;
  parseError := sample_parseError;
  DecompressBody := λ body _ _, body;
  map_range := λ V _ m, reverse (map_to_list m);
|}.
(** The request built for a URL through [pool_handle], and the world then. *)
Definition built_in (w : World) (id URL : string) : option (fullRequest.t * World) :=
  match processRequest pool_handle
          (request_of id URL (options_of ∅ [] "UA/1" "") "GET") w with
  | (Returned fr, w') => Some (fr, w')
  | _ => None
  end.
End Sample.

(** ** Close (lines 253-258)

    Close acts on the set of the closed channels, the field [closed] of the
    world. *)

Section CloseProgram.
Context `{GoTypes}.

(** [close(ch)]: closing the nil channel panics, and so does closing a
    channel a second time. *)
Definition close_chan (ch : option chan) (closed : gset chan)
    : outcome unit * gset chan :=
  match ch with
  | None => (Panicked (RuntimeError "close of nil channel"), closed)
  | Some c =>
      if decide (c ∈ closed)
      then (Panicked (RuntimeError "close of closed channel"), closed)
      else (Returned tt, {[c]} ∪ closed)
  end.

Definition Close (client : CycleTLS.t) (closed : gset chan)
    : outcome unit * gset chan :=
  match close_chan (CycleTLS.ReqChan client) closed with
  | (Returned _, closed') => close_chan (CycleTLS.RespChan client) closed'
  | aborted => aborted
  end.
End CloseProgram.

(** ** More vocabulary *)

Section MoreVocabulary.
Context `{GoLib}.

(** What lines 90-98 keep of the values of one response header: all of them
    joined for Set-Cookie, the last one for any other name, nothing for
    another name without values. *)
Definition flattened (name : string) (values : list string) : option string :=
  if decide (name = "Set-Cookie") then Some (strings_Join values "/,/")
  else last values.

(** No client pointer is cached under two hosts or in two maps. *)
Definition clients_unshared (w : World) : Prop :=
  ∀ (r1 r2 : mapref) (host1 host2 : string) (c : ptr),
    caches w r1 !! host1 = Some c → caches w r2 !! host2 = Some c →
    r1 = r2 ∧ host1 = host2.

(** The request differs from [fr] in the options it remembers only. *)
Definition same_wire (fr1 fr2 : fullRequest.t) : Prop :=
  fullRequest.req fr1 = fullRequest.req fr2 ∧
  fullRequest.client fr1 = fullRequest.client fr2 ∧
  cycleTLSRequest.RequestID (fullRequest.options fr1)
  = cycleTLSRequest.RequestID (fullRequest.options fr2).
End MoreVocabulary.

(** ** Checks that evaluate, for the runs on the sample library *)

Section Checks.
Context `{GoTypes}.

(** The call returned. *)
Definition is_returned {A} (o : outcome A) : bool :=
  match o with
  | Returned _ => true
  | _ => false
  end.

(** The option is [Some]. *)
Definition is_some {A} (o : option A) : bool :=
  match o with
  | Some _ => true
  | None => false
  end.

(** The client pointer of the request points into the heap of [w]. *)
Definition live_client (w : World) (fr : fullRequest.t) : bool :=
  is_some (clients w !! fullRequest.client fr).
End Checks.

(** ** The worker pool as a transition system (lines 103-129, 253-277)

    [workerPool] starts [workerPool_size] goroutines running [worker] on
    the same two channels.  Both channels are made without a buffer (lines
    243-244): a send is a hand-over to a goroutine that receives, and waits
    for one.

    A worker is at the receive of its [range reqChan], or in lines 271-274
    with the request it received, or at [respChan <- response] with the
    response it holds, or it has left the loop because [reqChan] was
    closed.  A caller of Queue has built its request and waits at
    [client.ReqChan <- response] until a worker receives it.  Who reads
    [respChan] is code of the caller's: it is the field [receiving] of the
    world.  Do may be called and channels may be closed at any time. *)

Section PoolSystem.
Context `{GoLib}.

(** Lines 106-109: the request Queue builds from its arguments. *)
Definition Queue_request (URL : string) (options : Options.t) (Method : string)
    : cycleTLSRequest.t :=
  cycleTLSRequest.mk _ "Queued Request"
    (Options.set_Method Method (Options.set_URL URL options)).

(** Lines 272-274: the world after the worker has logged the error, if the
    dispatcher returned one. *)
Definition log_failure (err : option error) (w : World) : World :=
  match err with
  | Some e => set_logs (λ l, l ++ ["Request Failed: " +:+ Error e]) w
  | None => w
  end.

Inductive worker_state :=
  | Receiving                           (* at the receive of [range reqChan] *)
  | Dispatching (res : fullRequest.t)   (* in lines 271-274 *)
  | Sending (response : Response.t)     (* at [respChan <- response] *)
  | Finished.                           (* out of the loop: [reqChan] was closed *)

Record pool := mkPool {
  offered : list fullRequest.t;   (* built by Queue, waiting at the send of line 111 *)
  workers : list worker_state;
  world : World;
  alive : bool;                   (* false once a goroutine panicked or exited the process *)
}.

(** The three steps that get a request answered: a worker receives a
    request that a caller of Queue offers, which is the hand-over of line
    111 to line 270; it runs lines 271-274 on it; it hands its response over
    to a reader of [respChan], line 275.  Go does not say which of several
    waiting senders a receive takes. *)
Inductive pool_work_step (reqChan respChan : chan) : pool → pool → Prop :=
  | pool_receive i l1 res l2 ws w :
      reqChan ∉ closed w →
      ws !! i = Some Receiving →
      pool_work_step reqChan respChan
        (mkPool (l1 ++ res :: l2) ws w true)
        (mkPool (l1 ++ l2) (<[i := Dispatching res]> ws)
                (set_submitted (λ l, l ++ [(reqChan, res)]) w) true)
  | pool_dispatch i q ws w res response w' :
      ws !! i = Some (Dispatching res) →
      worker_dispatch res w = (Returned response, w') →
      pool_work_step reqChan respChan
        (mkPool q ws w true)
        (mkPool q (<[i := Sending response]> ws) w' true)
  | pool_send i q ws w response w' :
      ws !! i = Some (Sending response) →
      send_response respChan response w = (Returned tt, w') →
      pool_work_step reqChan respChan
        (mkPool q ws w true)
        (mkPool q (<[i := Receiving]> ws) w' true).

(** Every step of the system.  A panic in any goroutine and [log.Fatal] end
    the process: the pool is no longer alive and has no further step. *)
Inductive pool_step (reqChan respChan : chan) : pool → pool → Prop :=
  | pool_work p p' :
      pool_work_step reqChan respChan p p' →
      pool_step reqChan respChan p p'
  (* lines 106-110: a call of Queue builds its request *)
  | pool_offer h URL o Method q ws w fr w' :
      CycleTLS.ReqChan h = Some reqChan →
      processRequest h (Queue_request URL o Method) w = (Returned fr, w') →
      pool_step reqChan respChan
        (mkPool q ws w true) (mkPool (q ++ [fr]) ws w' true)
  | pool_offer_aborts h URL o Method q ws w x w' :
      processRequest h (Queue_request URL o Method) w = (x, w') →
      aborts x →
      pool_step reqChan respChan
        (mkPool q ws w true) (mkPool q ws w' false)
  (* line 111, on a closed channel *)
  | pool_offer_panics l1 res l2 ws w :
      reqChan ∈ closed w →
      pool_step reqChan respChan
        (mkPool (l1 ++ res :: l2) ws w true) (mkPool (l1 ++ l2) ws w false)
  (* lines 271-274, when the dispatcher panics *)
  | pool_dispatch_panics i q ws w res x w' :
      ws !! i = Some (Dispatching res) →
      worker_dispatch res w = (x, w') →
      aborts x →
      pool_step reqChan respChan
        (mkPool q ws w true) (mkPool q ws w' false)
  (* line 275, on a closed channel *)
  | pool_send_panics i q ws w response x w' :
      ws !! i = Some (Sending response) →
      send_response respChan response w = (x, w') →
      aborts x →
      pool_step reqChan respChan
        (mkPool q ws w true) (mkPool q ws w' false)
  (* line 270, on a closed channel: the loop ends *)
  | pool_leave i q ws w :
      reqChan ∈ closed w →
      ws !! i = Some Receiving →
      pool_step reqChan respChan
        (mkPool q ws w true) (mkPool q (<[i := Finished]> ws) w true)
  (* lines 255 and 256: Close closes one channel, then the other, and other
     goroutines run in between; [ch] is a field of any handle *)
  | pool_close ch q ws w x closed' :
      close_chan ch (closed w) = (x, closed') →
      pool_step reqChan respChan
        (mkPool q ws w true)
        (mkPool q ws (set_closed (λ _, closed') w) (is_returned x))
  (* lines 115-129: a call of Do, through any handle *)
  | pool_Do h URL o Method q ws w x w' :
      Do h URL o Method w = (x, w') →
      pool_step reqChan respChan
        (mkPool q ws w true) (mkPool q ws w' (is_returned x))
  (* the caller's code starts or stops receiving on some channels *)
  | pool_readers R q ws w :
      pool_step reqChan respChan
        (mkPool q ws w true) (mkPool q ws (set_receiving (λ _, R) w) true).

(** [workerPool] just started in world [w]: every worker waits at its
    receive and no call of Queue is under way. *)
Definition pool_start (w : World) : pool :=
  mkPool [] (replicate workerPool_size Receiving) w true.

(** The worker holds a request or its response. *)
Definition in_flight (s : worker_state) : nat :=
  match s with
  | Dispatching _ | Sending _ => 1
  | Receiving | Finished => 0
  end.


(** The workers that hold a request or its response. *)
Definition busy (ws : list worker_state) : nat :=
  sum_list (in_flight <$> ws).




(** The requests handed over on [reqChan] since world [w0]. *)
Definition handed_since (reqChan : chan) (w0 w : World)
    (taken : list fullRequest.t) : Prop :=
  submitted w = submitted w0 ++ ((λ fr, (reqChan, fr)) <$> taken).

(** The responses handed over on [respChan] since world [w0]. *)
Definition results_since (respChan : chan) (w0 w : World)
    (results : list Response.t) : Prop :=
  delivered w = delivered w0 ++ ((λ r, (respChan, r)) <$> results).

(** A request as Queue builds it: it bears the one identifier of Queue. *)
Definition queued (fr : fullRequest.t) : Prop :=
  cycleTLSRequest.RequestID (fullRequest.options fr) = "Queued Request".

(** A result of a request queued by Queue: it bears the identifier that
    Queue gives to every request, or it is the zero response. *)
Definition queued_result (r : Response.t) : Prop :=
  Response.RequestID r = "Queued Request" ∨ r = Response.zero.

(** The request can be dispatched in world [w]: it is one of Queue's and its
    client pointer points into the heap. *)
Definition request_ok (w : World) (fr : fullRequest.t) : Prop :=
  queued fr ∧ is_Some (clients w !! fullRequest.client fr).

(** What a worker holds is a request of Queue's that can be dispatched, or
    a result of one. *)
Definition worker_ok (w : World) (s : worker_state) : Prop :=
  match s with
  | Dispatching res => request_ok w res
  | Sending r => queued_result r
  | Receiving | Finished => True
  end.

(** What holds of the pool while it is alive, started in world [w0]. *)
Definition pool_invariant (reqChan respChan : chan) (w0 : World) (p : pool) : Prop :=
  caches_live (world p) ∧
  length (workers p) = workerPool_size ∧
  (∀ i, workers p !! i = Some Finished → reqChan ∈ closed (world p)) ∧
  Forall (request_ok (world p)) (offered p) ∧
  Forall (worker_ok (world p)) (workers p) ∧
  ∃ taken results,
    handed_since reqChan w0 (world p) taken ∧
    results_since respChan w0 (world p) results ∧
    length taken = length results + busy (workers p) ∧
    Forall queued taken ∧
    Forall queued_result results.
End PoolSystem.

(** * Properties *)

(** ** The monad *)

Section MonadFacts.
Context `{GoTypes}.

Lemma bind_Returned {A B} (m : M A) (k : A → M B) w b w' :
  bind m k w = (Returned b, w') ↔
  ∃ a w1, m w = (Returned a, w1) ∧ k a w1 = (Returned b, w').
Proof.
  unfold bind. split.
  - destruct (m w) as [[a| | |] w1]; [eauto | discriminate..].
  - intros (a & w1 & -> & Hk). exact Hk.
Qed.

Lemma bind_step {A B} (m : M A) (k : A → M B) w a w1 :
  m w = (Returned a, w1) → bind m k w = k a w1.
Proof. unfold bind. by intros ->. Qed.

Lemma bind_ret {A B} (a : A) (k : A → M B) w : bind (ret a) k w = k a w.
Proof. reflexivity. Qed.
End MonadFacts.

(** ** Sends *)

Section Sends.
Context `{GoTypes}.

Lemma send_request_Returned ch v w w' :
  send_request ch v w = (Returned tt, w') →
  ∃ c, ch = Some c ∧ (c ∉ closed w) ∧ (c ∈ receiving w) ∧
       w' = set_submitted (λ l, l ++ [(c, v)]) w.
Proof.
  unfold send_request. destruct ch as [c|]; [|discriminate].
  destruct (decide (c ∈ closed w)); [discriminate|].
  destruct (decide (c ∈ receiving w)); [|discriminate].
  intros [= <-]. by exists c.
Qed.

Lemma send_response_Returned ch v w w' :
  send_response ch v w = (Returned tt, w') →
  (ch ∉ closed w) ∧ (ch ∈ receiving w) ∧
  w' = set_delivered (λ l, l ++ [(ch, v)]) w.
Proof.
  unfold send_response.
  destruct (decide (ch ∈ closed w)); [discriminate|].
  destruct (decide (ch ∈ receiving w)); [|discriminate].
  by intros [= <-].
Qed.

Lemma send_response_served ch v w :
  ch ∉ closed w → ch ∈ receiving w →
  send_response ch v w = (Returned tt, set_delivered (λ l, l ++ [(ch, v)]) w).
Proof.
  intros Hopen Hrecv. unfold send_response.
  by rewrite decide_False, decide_True.
Qed.
End Sends.

(** ** Header ordering (lines 162-214) *)

Section HeaderOrder.
Context `{GoLib}.

Lemma effectiveHeaderOrder_lower_aux (l acc : list string) :
  foldl (λ headerOrder v, headerOrder ++ [strings_ToLower v]) acc l
  = acc ++ (strings_ToLower <$> l).
Proof.
  revert acc. induction l as [|v l IH]; intros acc; simpl.
  - by rewrite app_nil_r.
  - rewrite IH. by rewrite <- app_assoc.
Qed.

(** The list in force: the caller's, lower-cased, or the default. *)
Lemma effectiveHeaderOrder_cases (HeaderOrder : list string) :
  effectiveHeaderOrder HeaderOrder =
    match HeaderOrder with
    | [] => defaultHeaderOrder
    | _ :: _ => strings_ToLower <$> HeaderOrder
    end.
Proof.
  unfold effectiveHeaderOrder. destruct HeaderOrder as [|v l].
  - reflexivity.
  - rewrite bool_decide_eq_true_2 by (simpl; lia).
    by rewrite effectiveHeaderOrder_lower_aux.
Qed.

(** One pass appends [key] once per matching entry, whatever the order of
    the entries. *)
Lemma match_key_names key hs st :
  (match_key key hs st).2
  = st.2 ++ replicate
      (length (filter (λ kv : string * string, key = strings_ToLower kv.1) hs)) key.
Proof.
  unfold match_key. revert st.
  induction hs as [|[k v] hs IH]; intros [headermap names]; simpl.
  - by rewrite app_nil_r.
  - rewrite filter_cons. simpl. destruct (decide (key = strings_ToLower k)) as [Heq|Hne].
    + rewrite IH. simpl. rewrite <- Heq. by rewrite <- app_assoc.
    + by rewrite IH.
Qed.

Lemma match_key_visit_order key hs hs' st :
  hs ≡ₚ hs' → (match_key key hs st).2 = (match_key key hs' st).2.
Proof. intros Hp. rewrite !match_key_names. by rewrite Hp. Qed.

Lemma order_loop_names headerOrder Headers st w :
  range_visits_all →
  ∃ st', order_loop headerOrder Headers st w
         = (Returned st', set_ranges (λ n, n + length headerOrder) w)
       ∧ st'.2 = st.2 ++ precedence_names headerOrder Headers.
Proof.
  intros Hrange. revert st w.
  induction headerOrder as [|key rest IH]; intros st w; simpl.
  - exists st. split.
    + unfold ret. f_equal. destruct w; unfold set_ranges; simpl. f_equal. lia.
    + by rewrite app_nil_r.
  - unfold bind, range_map at 1.
    destruct (IH (match_key key (map_range string (ranges w) Headers) st)
                 (set_ranges S w)) as (st' & Hrun & Hst').
    exists st'. split.
    + rewrite Hrun. f_equal. destruct w; unfold set_ranges; simpl. f_equal. lia.
    + rewrite Hst', match_key_names. rewrite <- app_assoc. f_equal.
      unfold precedence_names at 2. simpl. f_equal.
      unfold matches. by rewrite (Hrange string (ranges w) Headers).
Qed.

Lemma orderHeaders_names HeaderOrder Headers w :
  range_visits_all →
  orderHeaders HeaderOrder Headers w
  = (Returned (precedence_names (effectiveHeaderOrder HeaderOrder) Headers),
     set_ranges (λ n, n + length (effectiveHeaderOrder HeaderOrder)) w).
Proof.
  intros Hrange. unfold orderHeaders.
  destruct (order_loop_names (effectiveHeaderOrder HeaderOrder) Headers (∅, []) w Hrange)
    as (st' & Hrun & Hst').
  rewrite (bind_step _ _ _ _ _ Hrun). unfold ret. by rewrite Hst'.
Qed.

(** The loop returns in every world, also when [range] misbehaves. *)
Lemma order_loop_returns headerOrder Headers st w :
  ∃ st', order_loop headerOrder Headers st w
         = (Returned st', set_ranges (λ n, n + length headerOrder) w).
Proof.
  revert st w. induction headerOrder as [|key rest IH]; intros st w; simpl.
  - exists st. unfold ret. f_equal. destruct w; unfold set_ranges; simpl. f_equal. lia.
  - unfold bind, range_map at 1.
    destruct (IH (match_key key (map_range string (ranges w) Headers) st)
                 (set_ranges S w)) as (st' & Hrun).
    exists st'. rewrite Hrun. f_equal.
    destruct w; unfold set_ranges; simpl. f_equal. lia.
Qed.

Lemma orderHeaders_returns HeaderOrder Headers w :
  ∃ names, orderHeaders HeaderOrder Headers w
           = (Returned names,
              set_ranges (λ n, n + length (effectiveHeaderOrder HeaderOrder)) w).
Proof.
  unfold orderHeaders.
  destruct (order_loop_returns (effectiveHeaderOrder HeaderOrder) Headers (∅, []) w)
    as (st' & Hrun).
  exists st'.2. by rewrite (bind_step _ _ _ _ _ Hrun).
Qed.

Lemma matches_pos key Headers :
  (0 < matches key Headers)%nat ↔ ∃ k v, Headers !! k = Some v ∧ strings_ToLower k = key.
Proof.
  unfold matches. split.
  - intros Hpos.
    destruct (filter _ (map_to_list Headers)) as [|[k v] l] eqn:Hf; [simpl in Hpos; lia|].
    assert (Hin : (k, v) ∈ filter (λ kv : string * string, key = strings_ToLower kv.1)
                                  (map_to_list Headers)) by (rewrite Hf; left).
    apply list_elem_of_filter in Hin as [Hk Hin]. simpl in Hk.
    apply elem_of_map_to_list in Hin. eauto.
  - intros (k & v & Hkv & Hlow).
    assert (Hin : (k, v) ∈ filter (λ kv : string * string, key = strings_ToLower kv.1)
                                  (map_to_list Headers)).
    { apply list_elem_of_filter. split; [done|]. by apply elem_of_map_to_list. }
    destruct (filter _ (map_to_list Headers)); [by apply elem_of_nil in Hin|simpl; lia].
Qed.

Lemma elem_of_precedence_names x headerOrder Headers :
  x ∈ precedence_names headerOrder Headers ↔
  x ∈ headerOrder ∧ ∃ k v, Headers !! k = Some v ∧ strings_ToLower k = x.
Proof.
  unfold precedence_names. rewrite list_elem_of_bind. split.
  - intros (key & Hx & Hkey). apply elem_of_replicate in Hx as [-> Hn].
    split; [done|]. apply matches_pos. lia.
  - intros [Hx Hex]. exists x. split; [|done].
    apply elem_of_replicate. split; [done|]. apply matches_pos in Hex. lia.
Qed.

Lemma elem_of_lower_names key Headers :
  key ∈ lower_names Headers ↔ ∃ k v, Headers !! k = Some v ∧ strings_ToLower k = key.
Proof.
  unfold lower_names. rewrite elem_of_map. split.
  - intros (k & -> & Hk). apply elem_of_dom in Hk as [v Hv]. eauto.
  - intros (k & v & Hv & <-). exists k. split; [done|]. apply elem_of_dom. eauto.
Qed.

(** When no two header names differ by case only, a key matches at most
    one header. *)
Lemma matches_le_1 key Headers :
  (∀ k1 k2, k1 ∈ dom Headers → k2 ∈ dom Headers →
            strings_ToLower k1 = strings_ToLower k2 → k1 = k2) →
  (matches key Headers ≤ 1)%nat.
Proof.
  intros Hinj. unfold matches.
  pose proof (NoDup_filter (λ kv : string * string, key = strings_ToLower kv.1)
                _ (NoDup_map_to_list Headers)) as Hnd.
  assert (Hall : ∀ kv, kv ∈ filter (λ kv : string * string, key = strings_ToLower kv.1)
                              (map_to_list Headers) →
                       key = strings_ToLower kv.1 ∧ Headers !! kv.1 = Some kv.2).
  { intros [k v] Hin. apply list_elem_of_filter in Hin as [Hk Hin].
    split; [done|]. by apply elem_of_map_to_list. }
  destruct (filter _ (map_to_list Headers)) as [|[k1 v1] [|[k2 v2] l]]; simpl; [lia..|].
  exfalso.
  destruct (Hall (k1, v1)) as [Hk1 Hv1]; [left|].
  destruct (Hall (k2, v2)) as [Hk2 Hv2]; [right; left|].
  simpl in *.
  assert (k1 = k2).
  { apply Hinj; [apply elem_of_dom; eauto..|congruence]. }
  subst k2. assert (v1 = v2) by congruence. subst v2.
  apply NoDup_cons in Hnd as [Hnotin _]. apply Hnotin. left.
Qed.

Lemma precedence_names_filter headerOrder Headers :
  (∀ k1 k2, k1 ∈ dom Headers → k2 ∈ dom Headers →
            strings_ToLower k1 = strings_ToLower k2 → k1 = k2) →
  precedence_names headerOrder Headers
  = filter (λ key, key ∈ lower_names Headers) headerOrder.
Proof.
  intros Hinj. unfold precedence_names.
  induction headerOrder as [|key rest IH]; [done|].
  rewrite filter_cons. change ((key :: rest) ≫= (λ key, replicate (matches key Headers) key))
    with (replicate (matches key Headers) key ++ (rest ≫= (λ key, replicate (matches key Headers) key))).
  rewrite IH.
  pose proof (matches_le_1 key Headers Hinj) as Hle.
  pose proof (matches_pos key Headers) as Hpos.
  rewrite <- elem_of_lower_names in Hpos.
  destruct (decide (key ∈ lower_names Headers)) as [Hin|Hnin].
  - apply Hpos in Hin. replace (matches key Headers) with 1 by lia. done.
  - replace (matches key Headers) with 0; [done|].
    destruct (matches key Headers); [done|]. exfalso. apply Hnin, Hpos. lia.
Qed.
End HeaderOrder.

Section HeaderOrderClaims.
Context `{GoLib}.

(** C6.  The ordered header names are the keys of the precedence list in
    force (the caller's list lower-cased, or the default list when the
    caller's is empty) that are the lower-cased name of some header of the
    request, in the order of that list: each key stands once per header
    matching it, so that, when no two header names differ by case only, the
    output is the precedence list filtered by presence.  In particular the
    headers Accept and User-Agent with the list user-agent, accept give
    user-agent, accept. *)
Theorem orderHeaders_precedence_order :
  range_visits_all →
  (∀ (HeaderOrder : list string) (Headers : gmap string string) (w : World),
     ∃ names w',
       orderHeaders HeaderOrder Headers w = (Returned names, w') ∧
       let headerOrder := match HeaderOrder with
                          | [] => defaultHeaderOrder
                          | _ :: _ => strings_ToLower <$> HeaderOrder
                          end in
       (∀ x, x ∈ names ↔
             x ∈ headerOrder ∧
             ∃ k v, Headers !! k = Some v ∧ strings_ToLower k = x) ∧
       names = precedence_names headerOrder Headers ∧
       ((∀ k1 k2, k1 ∈ dom Headers → k2 ∈ dom Headers →
                  strings_ToLower k1 = strings_ToLower k2 → k1 = k2) →
        names = filter (λ key, key ∈ lower_names Headers) headerOrder))
  ∧ (strings_ToLower "user-agent" = "user-agent" →
     strings_ToLower "accept" = "accept" →
     strings_ToLower "User-Agent" = "user-agent" →
     strings_ToLower "Accept" = "accept" →
     ∀ w : World, ∃ w',
       orderHeaders ["user-agent"; "accept"]
                    {[ "Accept" := "*/*"; "User-Agent" := "X" ]} w
       = (Returned ["user-agent"; "accept"], w')).
Proof.
  intros Hrange. split.
  - intros HeaderOrder Headers w.
    eexists _, _. split; [by apply orderHeaders_names|].
    rewrite effectiveHeaderOrder_cases. simpl. split; [|split].
    + intros x. apply elem_of_precedence_names.
    + done.
    + apply precedence_names_filter.
  - intros Hua Hacc HUA HAcc w.
    eexists. rewrite (orderHeaders_names _ _ _ Hrange). f_equal.
    rewrite effectiveHeaderOrder_cases.
    change (strings_ToLower <$> ["user-agent"; "accept"])
      with [strings_ToLower "user-agent"; strings_ToLower "accept"].
    rewrite Hua, Hacc.
    assert (Hdom : dom ({[ "Accept" := "*/*"; "User-Agent" := "X" ]} : gmap string string)
                   = ({[ "Accept"; "User-Agent" ]} : gset string)).
    { rewrite dom_insert_L, dom_singleton_L. done. }
    rewrite precedence_names_filter.
    + assert (Hlow : lower_names ({[ "Accept" := "*/*"; "User-Agent" := "X" ]})
                     = ({[ "accept"; "user-agent" ]} : gset string)).
      { unfold lower_names. rewrite Hdom.
        rewrite set_map_union_L, !set_map_singleton_L. by rewrite HUA, HAcc. }
      rewrite Hlow. rewrite !filter_cons, filter_nil.
      rewrite !decide_True by set_solver. done.
    + intros k1 k2. rewrite Hdom. intros Hk1 Hk2.
      apply elem_of_union in Hk1 as [Hk1|Hk1]; apply elem_of_singleton in Hk1;
      apply elem_of_union in Hk2 as [Hk2|Hk2]; apply elem_of_singleton in Hk2;
      subst; rewrite ?HUA, ?HAcc; intros Heq; try done; discriminate Heq.
Qed.
End HeaderOrderClaims.

(** C8.  The ordered header names do not depend on the order in which the
    header map is visited: two runs on the same header-order list and the
    same headers, in any two worlds and under any two visiting orders of the
    runtime, return the same sequence. *)
Theorem orderHeaders_deterministic `{T : GoTypes} (L1 L2 : GoLib)
    (HeaderOrder : list string) (Headers : gmap string string) (w1 w2 : World) :
  @strings_ToLower T L1 = @strings_ToLower T L2 →
  @range_visits_all T L1 →
  @range_visits_all T L2 →
  ∃ names,
    (@orderHeaders T L1 HeaderOrder Headers w1).1 = Returned names ∧
    (@orderHeaders T L2 HeaderOrder Headers w2).1 = Returned names.
Proof.
  intros Hlower Hr1 Hr2.
  exists (@precedence_names T L1 (@effectiveHeaderOrder T L1 HeaderOrder) Headers).
  rewrite (@orderHeaders_names T L1 _ _ _ Hr1), (@orderHeaders_names T L2 _ _ _ Hr2).
  simpl. split; [done|].
  unfold precedence_names, matches, effectiveHeaderOrder. by rewrite Hlower.
Qed.

(** ** processRequest (lines 132-236) *)

Section ProcessRequest.
Context `{GoLib}.

Lemma processRequest_tail (R : cycleTLSRequest.t) u (c : ptr) (w1 : World) :
  let o := cycleTLSRequest.Options R in
  (req ←- match http_NewRequest (strings_ToUpper (Options.Method o)) (Options.URL o)
                                (Options.Body o) with
          | inl err => log_Fatal err
          | inr r => ret r
          end;
   headerorderkey ←- orderHeaders (Options.HeaderOrder o) (Options.Headers o);
   let Header : http_Header :=
     <[http_HeaderOrderKey := headerorderkey]>
       (<[http_PHeaderOrderKey := pseudoHeaderOrder]> ∅) in
   u ←- ret u;
   hs ←- range_map (Options.Headers o);
   let Header := append_headers Header hs in
   let Header := Header_Set Header "Host" (url_URL.Host u) in
   let Header := Header_Set Header "user-agent" (Options.UserAgent o) in
   ret (fullRequest.mk _ (Request.mk _ req Header) c R)) w1
  = finish_request R u c w1.
Proof.
  intros o. unfold finish_request. fold o.
  destruct (http_NewRequest _ _ _) as [err|req]; [reflexivity|].
  rewrite bind_ret. unfold ordered_names_at.
  destruct (orderHeaders_returns (Options.HeaderOrder o) (Options.Headers o) w1)
    as [names Hn].
  rewrite (bind_step _ _ _ _ _ Hn). rewrite Hn.
  cbv zeta. rewrite bind_ret.
  unfold bind, range_map, ret, built_Header. simpl. f_equal.
  destruct w1; unfold set_ranges; simpl. f_equal. lia.
Qed.

(** processRequest, case by case. *)
Lemma processRequest_unfold h R w :
  let o := cycleTLSRequest.Options R in
  processRequest h R w =
    match url_Parse (Options.URL o) with
    | inl err => (Panicked (PanicError err), w)
    | inr u =>
        match cached_client h w (url_URL.Host u) with
        | Some c => finish_request R u c w
        | None =>
            match newClient (browser.mk _ (Options.Ja3 o) (Options.UserAgent o)
                                        (Options.Cookies o))
                            (Options.Timeout o) (Options.DisableRedirect o)
                            (Options.UserAgent o) (Options.Proxy o) with
            | inl err => (Exited 1, set_logs (λ l, l ++ [Error err]) w)
            | inr built =>
                let w1 := set_clients (λ l, l ++ [built]) w in
                match CycleTLS.cacheClients h with
                | None => (Panicked (RuntimeError "assignment to entry in nil map"), w1)
                | Some r =>
                    finish_request R u (length (clients w))
                      (set_caches
                         (λ s, <[r := <[url_URL.Host u := length (clients w)]> (s r)]> s)
                         w1)
                end
            end
        end
    end.
Proof.
  intros o. unfold processRequest. fold o.
  destruct (url_Parse (Options.URL o)) as [err|u] eqn:Hu; [reflexivity|].
  rewrite bind_ret. unfold cached_client, bind at 1, cache_lookup.
  destruct (CycleTLS.cacheClients h) as [r|].
  - destruct (caches w r !! url_URL.Host u) as [c|].
    + exact (processRequest_tail R u c w).
    + destruct (newClient _ _ _ _ _) as [err|built]; [reflexivity|].
      exact (processRequest_tail R u (length (clients w)) _).
  - destruct (newClient _ _ _ _ _) as [err|built]; reflexivity.
Qed.

(** A malformed URL: [panic(err)] at line 141, before anything else. *)
Lemma processRequest_parse_error h R w err :
  url_Parse (Options.URL (cycleTLSRequest.Options R)) = inl err →
  processRequest h R w = (Panicked (PanicError err), w).
Proof. intros Hu. rewrite processRequest_unfold. cbv zeta. by rewrite Hu. Qed.

(** No cached client and [newClient] fails: [log.Fatal(err)] at line 153. *)
Lemma processRequest_newClient_error h R w u err :
  let o := cycleTLSRequest.Options R in
  url_Parse (Options.URL o) = inr u →
  cached_client h w (url_URL.Host u) = None →
  newClient (browser.mk _ (Options.Ja3 o) (Options.UserAgent o) (Options.Cookies o))
            (Options.Timeout o) (Options.DisableRedirect o) (Options.UserAgent o)
            (Options.Proxy o) = inl err →
  processRequest h R w = (Exited 1, set_logs (λ l, l ++ [Error err]) w).
Proof.
  intros o Hu Hmiss Hnew. rewrite processRequest_unfold. cbv zeta. fold o.
  by rewrite Hu, Hmiss, Hnew.
Qed.

(** A nil cache map: the client is built, then line 155 panics. *)
Lemma processRequest_nil_cache h R w u built :
  let o := cycleTLSRequest.Options R in
  CycleTLS.cacheClients h = None →
  url_Parse (Options.URL o) = inr u →
  newClient (browser.mk _ (Options.Ja3 o) (Options.UserAgent o) (Options.Cookies o))
            (Options.Timeout o) (Options.DisableRedirect o) (Options.UserAgent o)
            (Options.Proxy o) = inr built →
  processRequest h R w
  = (Panicked (RuntimeError "assignment to entry in nil map"),
     set_clients (λ l, l ++ [built]) w).
Proof.
  intros o Hnil Hu Hnew. rewrite processRequest_unfold. cbv zeta. fold o.
  unfold cached_client. by rewrite Hu, Hnil, Hnew.
Qed.

(** With a nil cache map the call never returns: it ends the process. *)
Lemma processRequest_nil_cache_aborts h R w :
  CycleTLS.cacheClients h = None → aborts (processRequest h R w).1.
Proof.
  intros Hnil. rewrite processRequest_unfold. cbv zeta. unfold cached_client.
  rewrite Hnil. destruct (url_Parse _) as [err|u]; [exact I|].
  destruct (newClient _ _ _ _ _) as [err|built]; exact I.
Qed.

(** A cached client: nothing is built, the cached pointer is used. *)
Lemma processRequest_hit h R w u r c :
  url_Parse (Options.URL (cycleTLSRequest.Options R)) = inr u →
  CycleTLS.cacheClients h = Some r →
  caches w r !! url_URL.Host u = Some c →
  processRequest h R w = finish_request R u c w.
Proof.
  intros Hu Hr Hc. rewrite processRequest_unfold. cbv zeta.
  unfold cached_client. by rewrite Hu, Hr, Hc.
Qed.

(** What a run of [finish_request] leaves of the world, and of the
    request. *)
Lemma finish_request_frame R u c w1 x w' :
  finish_request R u c w1 = (x, w') →
  clients w' = clients w1 ∧ caches w' = caches w1 ∧ ncaches w' = ncaches w1 ∧
  submitted w' = submitted w1 ∧ delivered w' = delivered w1 ∧ trips w' = trips w1 ∧
  (∀ fr, x = Returned fr →
         fullRequest.client fr = c ∧ fullRequest.options fr = R) ∧
  (x ≠ Blocked).
Proof.
  unfold finish_request.
  destruct (http_NewRequest _ _ _) as [err|req]; intros [= <- <-]; simpl;
    repeat split; try done; by simplify_eq/=.
Qed.

(** A call that returns found the URL well formed and the cache map not
    nil, and either hit the cache or built a client and entered it. *)
Lemma processRequest_Returned h R w fr w' :
  processRequest h R w = (Returned fr, w') →
  let o := cycleTLSRequest.Options R in
  ∃ u r,
    url_Parse (Options.URL o) = inr u ∧
    CycleTLS.cacheClients h = Some r ∧
    fullRequest.options fr = R ∧
    caches w' r !! url_URL.Host u = Some (fullRequest.client fr) ∧
    ((caches w r !! url_URL.Host u = Some (fullRequest.client fr) ∧
      finish_request R u (fullRequest.client fr) w = (Returned fr, w')) ∨
     (caches w r !! url_URL.Host u = None ∧
      fullRequest.client fr = length (clients w) ∧
      ∃ built,
        newClient (browser.mk _ (Options.Ja3 o) (Options.UserAgent o) (Options.Cookies o))
                  (Options.Timeout o) (Options.DisableRedirect o) (Options.UserAgent o)
                  (Options.Proxy o) = inr built ∧
        finish_request R u (length (clients w))
          (set_caches (λ s, <[r := <[url_URL.Host u := length (clients w)]> (s r)]> s)
             (set_clients (λ l, l ++ [built]) w)) = (Returned fr, w'))).
Proof.
  rewrite processRequest_unfold. cbv zeta. unfold cached_client.
  destruct (url_Parse _) as [err|u]; [discriminate|].
  destruct (CycleTLS.cacheClients h) as [r|].
  - destruct (caches w r !! url_URL.Host u) as [c|] eqn:Hc.
    + intros Hfin. exists u, r.
      destruct (finish_request_frame _ _ _ _ _ _ Hfin)
        as (_ & Hcaches & _ & _ & _ & _ & Hfr & _).
      destruct (Hfr fr eq_refl) as [-> ->].
      rewrite Hcaches. repeat split; try done. left. done.
    + destruct (newClient _ _ _ _ _) as [err|built]; [discriminate|].
      intros Hfin. exists u, r.
      destruct (finish_request_frame _ _ _ _ _ _ Hfin)
        as (_ & Hcaches & _ & _ & _ & _ & Hfr & _).
      destruct (Hfr fr eq_refl) as [Hcl ->].
      rewrite Hcaches, Hcl. simpl. rewrite fn_lookup_insert, lookup_insert_eq.
      repeat split; try done. right. repeat split; try done. exists built. done.
  - destruct (newClient _ _ _ _ _) as [err|built]; discriminate.
Qed.
End ProcessRequest.

Section Aborts.
Context `{GoTypes}.

Lemma bind_aborts {A B} (m : M A) (k : A → M B) w :
  aborts (m w).1 → aborts (bind m k w).1.
Proof. unfold bind. by destruct (m w) as [[a| | |] w1]. Qed.

Lemma bind_abort_eq {A B} (m : M A) (k : A → M B) w v w1 :
  m w = (Panicked v, w1) → bind m k w = (Panicked v, w1).
Proof. unfold bind. by intros ->. Qed.
End Aborts.

(** ** dispatcher (lines 66-101) *)

Section Dispatcher.
Context `{GoLib}.

(** The transport fails: a response with the classified status, no error. *)
Lemma dispatcher_transport_error res w c err :
  clients w !! fullRequest.client res = Some c →
  client_Do (trips w) c (fullRequest.req res) = inl err →
  dispatcher res w
  = (Returned
       (Response.mk (cycleTLSRequest.RequestID (fullRequest.options res))
                    (errorMessage.StatusCode (parseError err))
                    (errorMessage.ErrorMsg (parseError err) +:+ "-> " +:+ newline
                       +:+ Error err)
                    ∅, None),
     set_trips S w).
Proof.
  intros Hc Hdo. unfold dispatcher, bind, deref_client, round_trip.
  rewrite Hc. simpl. rewrite Hdo. reflexivity.
Qed.

(** With a live client pointer the dispatcher returns; its response is the
    zero value exactly when it returns an error, and carries the request's
    identifier otherwise. *)
Lemma dispatcher_returns res w :
  is_Some (clients w !! fullRequest.client res) →
  ∃ response err w',
    dispatcher res w = (Returned (response, err), w') ∧
    clients w' = clients w ∧ caches w' = caches w ∧
    delivered w' = delivered w ∧ submitted w' = submitted w ∧
    match err with
    | Some _ => response = Response.zero
    | None => Response.RequestID response
              = cycleTLSRequest.RequestID (fullRequest.options res)
    end.
Proof.
  intros [c Hc]. unfold dispatcher, bind, deref_client, round_trip.
  rewrite Hc. simpl.
  destruct (client_Do _ _ _) as [err|resp]; [by eexists _, _, _|].
  destruct (ioutil_ReadAll _) as [err|bodyBytes]; by eexists _, _, _.
Qed.

(** An error comes from reading the body only. *)
Lemma dispatcher_error_inv res w response e w' :
  dispatcher res w = (Returned (response, Some e), w') →
  ∃ c resp,
    clients w !! fullRequest.client res = Some c ∧
    client_Do (trips w) c (fullRequest.req res) = inr resp ∧
    ioutil_ReadAll (http_Response.Body resp) = inl e ∧
    response = Response.zero.
Proof.
  unfold dispatcher, bind, deref_client, round_trip.
  destruct (clients w !! fullRequest.client res) as [c|] eqn:Hc; [|discriminate].
  simpl.
  destruct (client_Do _ _ _) as [err|resp] eqn:Hdo; [discriminate|].
  destruct (ioutil_ReadAll _) as [err|bodyBytes] eqn:Hread; [|discriminate].
  intros [= <- <- <-]. by exists c, resp.
Qed.

(** The dispatcher neither builds clients nor touches the caches. *)
Lemma dispatcher_frame res w x w' :
  dispatcher res w = (x, w') →
  clients w' = clients w ∧ caches w' = caches w.
Proof.
  unfold dispatcher, bind, deref_client, round_trip.
  destruct (clients w !! fullRequest.client res) as [c|] eqn:Hc;
    [|by intros [= <- <-]].
  simpl.
  destruct (client_Do _ _ _) as [err|resp]; [by intros [= <- <-]|].
  destruct (ioutil_ReadAll _) as [err|bodyBytes]; by intros [= <- <-].
Qed.
End Dispatcher.

(** ** The client cache *)

Section Cache.
Context `{GoLib}.

Lemma processRequest_client_live h R w fr w' :
  caches_live w →
  processRequest h R w = (Returned fr, w') →
  fullRequest.client fr < length (clients w') ∧ caches_live w'.
Proof.
  intros Hlive Hrun.
  destruct (processRequest_Returned _ _ _ _ _ Hrun) as (u & r & Hu & Hr & _ & _ & Hcase).
  destruct Hcase as [[Hhit Hfin]|(Hmiss & Hc & built & Hnew & Hfin)];
    destruct (finish_request_frame _ _ _ _ _ _ Hfin) as (Hcl & Hca & _).
  - split.
    + rewrite Hcl. by eapply Hlive.
    + intros r' host c. rewrite Hca, Hcl. apply Hlive.
  - simpl in Hcl, Hca. split.
    + rewrite Hcl, Hc, length_app. simpl. lia.
    + intros r' host c. rewrite Hca, Hcl, length_app. simpl.
      destruct (decide (r = r')) as [<-|Hne].
      * rewrite fn_lookup_insert.
        destruct (decide (url_URL.Host u = host)) as [<-|Hne].
        -- rewrite lookup_insert_eq. intros [= <-]. lia.
        -- rewrite lookup_insert_ne by done. intros Hc'. apply Hlive in Hc'. lia.
      * rewrite fn_lookup_insert_ne by done. intros Hc'. apply Hlive in Hc'. lia.
Qed.

(** Whatever the outcome, processRequest keeps every cache entry and
    every client of the heap. *)
Lemma processRequest_keeps h R w x w' :
  processRequest h R w = (x, w') → keeps w w'.
Proof.
  rewrite processRequest_unfold. cbv zeta. unfold cached_client.
  destruct (url_Parse _) as [err|u]; [by intros [= <- <-]|].
  assert (Hfin : ∀ c w1, keeps w w1 → finish_request R u c w1 = (x, w') → keeps w w').
  { intros c w1 [Hk1 Hk2] Hfin.
    destruct (finish_request_frame _ _ _ _ _ _ Hfin) as (Hcl & Hca & _).
    split; intros *; rewrite ?Hca, ?Hcl; auto. }
  assert (Halloc : ∀ built, ∀ p c, clients w !! p = Some c →
                     (clients w ++ [built]) !! p = Some c).
  { intros built p c Hp. by apply lookup_app_l_Some. }
  destruct (CycleTLS.cacheClients h) as [r|].
  - destruct (caches w r !! url_URL.Host u) as [c|] eqn:Hc.
    + by apply Hfin.
    + destruct (newClient _ _ _ _ _) as [err|built]; [by intros [= <- <-]|].
      apply Hfin. split; simpl; [|by apply Halloc].
      intros r' host c Hc'.
      destruct (decide (r = r')) as [<-|Hne].
      * rewrite fn_lookup_insert.
        rewrite lookup_insert_ne; [done|]. intros <-. congruence.
      * by rewrite fn_lookup_insert_ne.
  - destruct (newClient _ _ _ _ _) as [err|built]; intros [= <- <-]; [done|].
    split; simpl; [done|by apply Halloc].
Qed.

Lemma program_step_keeps w w' : program_step w w' → keeps w w'.
Proof.
  intros [h R w0 fr w0' Hrun|res w0 r w0' Hrun|line w0 w0' Hrun
         |ch v w0 w0' Hrun|ch v w0 w0' Hrun].
  - by eapply processRequest_keeps.
  - destruct (dispatcher_frame _ _ _ _ Hrun) as [Hcl Hca].
    split; intros *; rewrite ?Hca, ?Hcl; auto.
  - by injection Hrun as <-.
  - by apply send_request_Returned in Hrun as (c & _ & _ & _ & ->).
  - by apply send_response_Returned in Hrun as (_ & _ & ->).
Qed.

Lemma program_steps_keep w w' : rtc program_step w w' → keeps w w'.
Proof.
  induction 1 as [w|w w1 w2 Hstep _ [IH1 IH2]]; [done|].
  destruct (program_step_keeps _ _ Hstep) as [H1 H2]. split; eauto.
Qed.

(** C5.  When a request was processed through a handle, every later
    request through the same handle to the same host takes the client of
    the first from the cache: nothing is built, the cache is not written,
    and the request that comes back carries the same client pointer, which
    still points to the client built before, whatever the options of the
    later request are. *)
Theorem processRequest_reuses_cached_client
    (h : CycleTLS.t) (R1 R2 : cycleTLSRequest.t) (u1 u2 : url_URL.t)
    (w0 w1 w2 : World) (fr1 : fullRequest.t) :
  processRequest h R1 w0 = (Returned fr1, w1) →
  rtc program_step w1 w2 →
  url_Parse (Options.URL (cycleTLSRequest.Options R1)) = inr u1 →
  url_Parse (Options.URL (cycleTLSRequest.Options R2)) = inr u2 →
  url_URL.Host u1 = url_URL.Host u2 →
  ∀ x w3,
    processRequest h R2 w2 = (x, w3) →
    clients w3 = clients w2 ∧ caches w3 = caches w2 ∧
    ∀ fr2, x = Returned fr2 →
      fullRequest.client fr2 = fullRequest.client fr1 ∧
      ∀ cl, clients w1 !! fullRequest.client fr1 = Some cl →
            clients w3 !! fullRequest.client fr2 = Some cl.
Proof.
  intros Hrun1 Hsteps Hu1 Hu2 Hhost x w3 Hrun2.
  destruct (processRequest_Returned _ _ _ _ _ Hrun1)
    as (u & r & Hu & Hr & _ & Hcached & _).
  simpl in Hu. rewrite Hu1 in Hu. injection Hu as <-.
  destruct (program_steps_keep _ _ Hsteps) as [Hkc Hkh].
  apply Hkc in Hcached. rewrite Hhost in Hcached.
  rewrite (processRequest_hit h R2 w2 u2 r _ Hu2 Hr Hcached) in Hrun2.
  destruct (finish_request_frame _ _ _ _ _ _ Hrun2)
    as (Hcl & Hca & _ & _ & _ & _ & Hfr & _).
  split; [done|]. split; [done|].
  intros fr2 ->. destruct (Hfr fr2 eq_refl) as [Hc _].
  split; [done|]. intros cl Hcl1. rewrite Hcl, Hc. by apply Hkh.
Qed.
End Cache.

(** ** Do, Queue and Init *)

Section Calls.
Context `{GoLib}.

(** C1.  Do returns a non-nil error only when the transport answered and
    reading the body of the answer failed.  When request construction
    returned and the transport fails, Do returns, with a nil error, the
    response made of the classified status, the classification text
    followed by the text of the error, and an empty header map. *)
Theorem Do_error_only_from_body_read
    (h : CycleTLS.t) (URL : string) (o : Options.t) (Method : string) (w : World) :
  let R := cycleTLSRequest.mk _ "cycleTLSRequest"
             (Options.set_Method Method (Options.set_URL URL o)) in
  (∀ response e w',
     Do h URL o Method w = (Returned (response, Some e), w') →
     ∃ res w1 c resp,
       processRequest h R w = (Returned res, w1) ∧
       clients w1 !! fullRequest.client res = Some c ∧
       client_Do (trips w1) c (fullRequest.req res) = inr resp ∧
       ioutil_ReadAll (http_Response.Body resp) = inl e)
  ∧ (caches_live w →
     ∀ res w1,
       processRequest h R w = (Returned res, w1) →
       ∃ c, clients w1 !! fullRequest.client res = Some c ∧
         ∀ err,
           client_Do (trips w1) c (fullRequest.req res) = inl err →
           Do h URL o Method w
           = (Returned
                (Response.mk "cycleTLSRequest"
                   (errorMessage.StatusCode (parseError err))
                   (errorMessage.ErrorMsg (parseError err) +:+ "-> " +:+ newline
                      +:+ Error err)
                   ∅, None),
              set_trips S w1)).
Proof.
  intros R. split.
  - intros response e w' Hdo. unfold Do in Hdo. fold R in Hdo.
    apply bind_Returned in Hdo as (res & w1 & Hreq & Hdo).
    apply bind_Returned in Hdo as ([response' err] & w2 & Hdisp & Hdo).
    simpl in Hdo. destruct err as [e'|]; [|by injection Hdo].
    injection Hdo as <- <- <-.
    destruct (dispatcher_error_inv _ _ _ _ _ Hdisp) as (c & resp & Hc & Hrt & Hread & _).
    by exists res, w1, c, resp.
  - intros Hlive res w1 Hreq.
    destruct (processRequest_client_live _ _ _ _ _ Hlive Hreq) as [Hlt _].
    apply lookup_lt_is_Some_2 in Hlt as [c Hc]. exists c. split; [done|].
    intros err Hrt. unfold Do. fold R.
    rewrite (bind_step _ _ _ _ _ Hreq).
    rewrite (bind_step _ _ _ _ _ (dispatcher_transport_error _ _ _ _ Hc Hrt)).
    destruct (processRequest_Returned _ _ _ _ _ Hreq) as (_ & _ & _ & _ & -> & _).
    reflexivity.
Qed.

(** C2, as the code has it.  Request construction has no error result.  A
    target URL that does not parse makes processRequest panic with the
    parse error, before it did anything else; on a cache miss, a failure
    of newClient makes it log the error and exit the process.  Both end
    the process. *)
Theorem processRequest_aborts_on_bad_input
    (h : CycleTLS.t) (R : cycleTLSRequest.t) (w : World) :
  let o := cycleTLSRequest.Options R in
  (∀ err,
     url_Parse (Options.URL o) = inl err →
     processRequest h R w = (Panicked (PanicError err), w) ∧
     aborts (processRequest h R w).1)
  ∧ (∀ u err,
       url_Parse (Options.URL o) = inr u →
       cached_client h w (url_URL.Host u) = None →
       newClient (browser.mk _ (Options.Ja3 o) (Options.UserAgent o) (Options.Cookies o))
                 (Options.Timeout o) (Options.DisableRedirect o) (Options.UserAgent o)
                 (Options.Proxy o) = inl err →
       processRequest h R w = (Exited 1, set_logs (λ l, l ++ [Error err]) w) ∧
       aborts (processRequest h R w).1).
Proof.
  intros o. split.
  - intros err Hu. rewrite (processRequest_parse_error _ _ _ _ Hu). done.
  - intros u err Hu Hmiss Hnew.
    rewrite (processRequest_newClient_error _ _ _ _ _ Hu Hmiss Hnew). done.
Qed.

(** C9.  Init with the pool requested returns a handle whose cache map is
    nil.  Through such a handle no call of Do or Queue returns: each ends
    the process, and when the URL parses and newClient succeeds, it does so
    after the client was built, by the panic of the assignment to the nil
    map. *)
Theorem Init_pool_has_nil_cache (workers : list bool) (w : World) :
  workers !! 0 = Some true →
  ∃ h w',
    Init workers w = (Returned h, w') ∧
    CycleTLS.cacheClients h = None ∧
    ∀ (URL : string) (o : Options.t) (Method : string) (w0 : World),
      aborts (Do h URL o Method w0).1 ∧
      aborts (Queue h URL o Method w0).1 ∧
      ∀ u built,
        url_Parse URL = inr u →
        newClient (browser.mk _ (Options.Ja3 o) (Options.UserAgent o) (Options.Cookies o))
                  (Options.Timeout o) (Options.DisableRedirect o) (Options.UserAgent o)
                  (Options.Proxy o) = inr built →
        Do h URL o Method w0
        = (Panicked (RuntimeError "assignment to entry in nil map"),
           set_clients (λ l, l ++ [built]) w0) ∧
        Queue h URL o Method w0
        = (Panicked (RuntimeError "assignment to entry in nil map"),
           set_clients (λ l, l ++ [built]) w0).
Proof.
  intros Hw. destruct workers as [|b rest]; [discriminate|].
  injection Hw as ->. eexists _, _. split; [reflexivity|]. split; [reflexivity|].
  intros URL o Method w0. split; [|split].
  - unfold Do. by apply bind_aborts, processRequest_nil_cache_aborts.
  - unfold Queue. by apply bind_aborts, processRequest_nil_cache_aborts.
  - intros u built Hu Hnew. split.
    + unfold Do. apply bind_abort_eq.
      by apply (processRequest_nil_cache _ _ _ u built).
    + unfold Queue. apply bind_abort_eq.
      by apply (processRequest_nil_cache _ _ _ u built).
Qed.

(** C10.  Do and Queue build the request from the caller's options with
    the URL and Method fields replaced by their own parameters and every
    other field as supplied: a call that returns has processed and
    dispatched, or submitted, exactly that request, and what the caller had
    put in those two fields changes nothing. *)
Theorem Do_Queue_overwrite_URL_Method
    (h : CycleTLS.t) (URL : string) (o : Options.t) (Method : string) :
  let o' := Options.mk _ URL Method (Options.Headers o) (Options.Body o)
              (Options.Ja3 o) (Options.UserAgent o) (Options.Proxy o)
              (Options.Cookies o) (Options.Timeout o) (Options.DisableRedirect o)
              (Options.HeaderOrder o) (Options.OrderAsProvided o) in
  (∀ w r w',
     Do h URL o Method w = (Returned r, w') →
     ∃ res w1 w2,
       processRequest h (cycleTLSRequest.mk _ "cycleTLSRequest" o') w
         = (Returned res, w1) ∧
       fullRequest.options res = cycleTLSRequest.mk _ "cycleTLSRequest" o' ∧
       dispatcher res w1 = (Returned r, w2))
  ∧ (∀ w w',
       Queue h URL o Method w = (Returned tt, w') →
       ∃ res w1 ch,
         processRequest h (cycleTLSRequest.mk _ "Queued Request" o') w
           = (Returned res, w1) ∧
         fullRequest.options res = cycleTLSRequest.mk _ "Queued Request" o' ∧
         CycleTLS.ReqChan h = Some ch ∧
         w' = set_submitted (λ l, l ++ [(ch, res)]) w1)
  ∧ (∀ preset_URL preset_Method,
       let preset := Options.set_Method preset_Method (Options.set_URL preset_URL o) in
       Do h URL preset Method = Do h URL o Method ∧
       Queue h URL preset Method = Queue h URL o Method).
Proof.
  intros o'. split; [|split].
  - intros w r w' Hdo. unfold Do in Hdo.
    change (Options.set_Method Method (Options.set_URL URL o)) with o' in Hdo.
    apply bind_Returned in Hdo as (res & w1 & Hreq & Hdo).
    apply bind_Returned in Hdo as ([response err] & w2 & Hdisp & Hdo).
    exists res, w1, w2.
    destruct (processRequest_Returned _ _ _ _ _ Hreq) as (_ & _ & _ & _ & Hopt & _).
    split; [done|]. split; [done|]. rewrite Hdisp.
    simpl in Hdo. destruct err; by injection Hdo as <- _.
  - intros w w' Hq. unfold Queue in Hq.
    change (Options.set_Method Method (Options.set_URL URL o)) with o' in Hq.
    apply bind_Returned in Hq as (res & w1 & Hreq & Hsend).
    destruct (processRequest_Returned _ _ _ _ _ Hreq) as (_ & _ & _ & _ & Hopt & _).
    apply send_request_Returned in Hsend as (ch & Hch & _ & _ & ->).
    by exists res, w1, ch.
  - intros preset_URL preset_Method preset. split; reflexivity.
Qed.
End Calls.

(** ** The worker (lines 268-277) *)

Section Worker.
Context `{GoLib}.

(** The dispatcher and the log leave the channels as they are. *)
Lemma dispatcher_channels res w x w' :
  dispatcher res w = (x, w') →
  closed w' = closed w ∧ receiving w' = receiving w ∧
  submitted w' = submitted w ∧ delivered w' = delivered w.
Proof.
  unfold dispatcher, bind, deref_client, round_trip.
  destruct (clients w !! fullRequest.client res) as [c|] eqn:Hc;
    [|by intros [= <- <-]].
  simpl.
  destruct (client_Do _ _ _) as [err|resp]; [by intros [= <- <-]|].
  destruct (ioutil_ReadAll _) as [err|bodyBytes]; by intros [= <- <-].
Qed.

Lemma log_failure_frame err w :
  clients (log_failure err w) = clients w ∧
  caches (log_failure err w) = caches w ∧
  submitted (log_failure err w) = submitted w ∧
  delivered (log_failure err w) = delivered w ∧
  closed (log_failure err w) = closed w ∧
  receiving (log_failure err w) = receiving w.
Proof. by destruct err. Qed.

(** Lines 271-274, once the dispatcher returned. *)
Lemma worker_dispatch_run res w response err w1 :
  dispatcher res w = (Returned (response, err), w1) →
  worker_dispatch res w = (Returned response, log_failure err w1).
Proof.
  intros Hdisp. unfold worker_dispatch.
  rewrite (bind_step _ _ _ _ _ Hdisp). by destruct err.
Qed.

(** One turn of the loop, once the dispatcher returned: the send is all that
    is left. *)
Lemma worker_turn_send respChan res w response err w1 :
  dispatcher res w = (Returned (response, err), w1) →
  worker_turn respChan res w
  = send_response respChan response (log_failure err w1)
  ∧ closed (log_failure err w1) = closed w
  ∧ receiving (log_failure err w1) = receiving w.
Proof.
  intros Hdisp.
  destruct (dispatcher_channels _ _ _ _ Hdisp) as (Hcl & Hrc & _).
  destruct (log_failure_frame err w1) as (_ & _ & _ & _ & Hcl' & Hrc').
  split_and!; [|congruence..].
  unfold worker_turn.
  by rewrite (bind_step _ _ _ _ _ (worker_dispatch_run _ _ _ _ _ Hdisp)).
Qed.

(** C3, as the code has it.  Whatever the dispatcher returns for a
    dequeued request, the worker goes on to the send of its response on the
    result queue: of the response of the dispatcher when it returned no
    error, and, after logging the error, of the zero-valued response when it
    returned one.  The send hands the response over when the result queue is
    open and somebody receives on it; it waits while nobody receives; it
    panics when the result queue was closed. *)
Theorem worker_turn_always_sends
    (respChan : chan) (res : fullRequest.t) (w : World)
    (response : Response.t) (err : option error) (w1 : World) :
  dispatcher res w = (Returned (response, err), w1) →
  worker_turn respChan res w = send_response respChan response (log_failure err w1)
  ∧ (respChan ∉ closed w → respChan ∈ receiving w →
     worker_turn respChan res w
     = (Returned tt,
        set_delivered (λ l, l ++ [(respChan, response)]) (log_failure err w1)))
  ∧ (respChan ∉ closed w → respChan ∉ receiving w →
     worker_turn respChan res w = (Blocked, log_failure err w1))
  ∧ (respChan ∈ closed w →
     worker_turn respChan res w
     = (Panicked (RuntimeError "send on closed channel"), log_failure err w1))
  ∧ (is_Some err → response = Response.zero).
Proof.
  intros Hdisp.
  destruct (worker_turn_send respChan _ _ _ _ _ Hdisp) as (Hturn & Hcl & Hrc).
  rewrite <- Hcl, <- Hrc.
  split_and!.
  - exact Hturn.
  - intros Hopen Hread. rewrite Hturn. by apply send_response_served.
  - intros Hopen Hread. rewrite Hturn. unfold send_response.
    by rewrite !decide_False.
  - intros Hclosed. rewrite Hturn. unfold send_response.
    by rewrite decide_True.
  - intros [e ->].
    by destruct (dispatcher_error_inv _ _ _ _ _ Hdisp) as (_ & _ & _ & _ & _ & ?).
Qed.
End Worker.

(** ** The worker pool *)

Section Pool.
Context `{GoLib}.

(** Counting the workers, when one of them changes its state. *)
Lemma sum_insert (f : worker_state → nat) (ws : list worker_state) (i : nat) s s' :
  ws !! i = Some s →
  sum_list (f <$> <[i := s']> ws) + f s = sum_list (f <$> ws) + f s'.
Proof.
  revert i. induction ws as [|t ws IH]; intros [|i] Hi; simplify_eq/=.
  - lia.
  - specialize (IH i Hi). lia.
Qed.

Lemma sum_replicate_0 (f : worker_state → nat) (n : nat) s :
  f s = 0 → sum_list (f <$> replicate n s) = 0.
Proof. intros Hs. induction n as [|n IH]; [done|]. csimpl. rewrite Hs. exact IH. Qed.

Lemma busy_le_length (ws : list worker_state) : (busy ws ≤ length ws)%nat.
Proof.
  unfold busy. induction ws as [|[|res|r|] ws IH]; csimpl; lia.
Qed.


Lemma busy_full (ws : list worker_state) (i : nat) s :
  busy ws = length ws → ws !! i = Some s → in_flight s = 1.
Proof.
  unfold busy. revert i. induction ws as [|s' ws IH]; intros [|i] Hb Hi; csimpl in *.
  - done.
  - done.
  - injection Hi as ->. pose proof (busy_le_length ws) as Hle. unfold busy in Hle.
    destruct s; simpl in *; lia.
  - apply (IH i); [|done]. pose proof (busy_le_length ws) as Hle. unfold busy in Hle.
    destruct s'; simpl in Hb; lia.
Qed.


(** Lines 271-274 touch neither the heap, the caches nor the channels. *)
Lemma worker_dispatch_frame res w x w' :
  worker_dispatch res w = (x, w') →
  clients w' = clients w ∧ caches w' = caches w ∧
  submitted w' = submitted w ∧ delivered w' = delivered w ∧
  closed w' = closed w ∧ receiving w' = receiving w.
Proof.
  unfold worker_dispatch. unfold bind at 1. unfold bind at 1.
  destruct (dispatcher res w) as [[[response err]| | |] w1] eqn:Hdisp;
    destruct (dispatcher_frame _ _ _ _ Hdisp) as (Hcl & Hca);
    destruct (dispatcher_channels _ _ _ _ Hdisp) as (Hclo & Hrc & Hsub & Hdel).
  - simpl. destruct err as [e|]; intros [= <- <-]; simpl; by split_and!.
  - by intros [= <- <-].
  - by intros [= <- <-].
  - by intros [= <- <-].
Qed.

(** With a live client pointer the worker gets a response to send. *)
Lemma worker_dispatch_returns res w :
  is_Some (clients w !! fullRequest.client res) →
  ∃ response w',
    worker_dispatch res w = (Returned response, w') ∧
    (Response.RequestID response = cycleTLSRequest.RequestID (fullRequest.options res)
     ∨ response = Response.zero).
Proof.
  intros Hlive.
  destruct (dispatcher_returns res w Hlive)
    as (response & err & w' & Hdisp & _ & _ & _ & _ & Hid).
  exists response, (log_failure err w').
  split; [by apply worker_dispatch_run|]. destruct err; auto.
Qed.

Lemma worker_dispatch_inv res w response w' :
  worker_dispatch res w = (Returned response, w') →
  Response.RequestID response = cycleTLSRequest.RequestID (fullRequest.options res)
  ∨ response = Response.zero.
Proof.
  intros Hrun.
  assert (Hlive : is_Some (clients w !! fullRequest.client res)).
  { unfold worker_dispatch, dispatcher, bind, deref_client in Hrun.
    destruct (clients w !! fullRequest.client res); [eauto|discriminate]. }
  destruct (worker_dispatch_returns res w Hlive) as (response2 & w2 & Hrun2 & Hid).
  rewrite Hrun in Hrun2. by injection Hrun2 as <- <-.
Qed.

(** processRequest leaves the channels and what went through them as they
    are. *)
Lemma processRequest_channels h R w x w' :
  processRequest h R w = (x, w') →
  submitted w' = submitted w ∧ delivered w' = delivered w ∧
  closed w' = closed w ∧ receiving w' = receiving w.
Proof.
  rewrite processRequest_unfold. cbv zeta. unfold cached_client.
  destruct (url_Parse _) as [err|u]; [by intros [= <- <-]|].
  assert (Hfin : ∀ c w1, finish_request R u c w1 = (x, w') →
            submitted w' = submitted w1 ∧ delivered w' = delivered w1 ∧
            closed w' = closed w1 ∧ receiving w' = receiving w1).
  { intros c w1. unfold finish_request.
    destruct (http_NewRequest _ _ _) as [err|req]; by intros [= <- <-]. }
  destruct (CycleTLS.cacheClients h) as [r|].
  - destruct (caches w r !! url_URL.Host u) as [c|] eqn:Hc.
    + apply Hfin.
    + destruct (newClient _ _ _ _ _) as [err|built]; [by intros [= <- <-]|].
      intros Hrun. by apply Hfin in Hrun.
  - destruct (newClient _ _ _ _ _) as [err|built]; by intros [= <- <-].
Qed.

(** A call of Do that returns keeps the heap and the caches, which stay
    live, and leaves the channels and what went through them as they are. *)
Lemma Do_frame h URL o Method w r w' :
  Do h URL o Method w = (Returned r, w') →
  keeps w w' ∧ (caches_live w → caches_live w') ∧
  submitted w' = submitted w ∧ delivered w' = delivered w ∧
  closed w' = closed w ∧ receiving w' = receiving w.
Proof.
  intros Hdo. unfold Do in Hdo.
  apply bind_Returned in Hdo as (res & w1 & Hreq & Hdo).
  apply bind_Returned in Hdo as ([response err] & w2 & Hdisp & Hdo).
  destruct (processRequest_keeps _ _ _ _ _ Hreq) as [Hk1 Hk2].
  destruct (processRequest_channels _ _ _ _ _ Hreq) as (Hs1 & Hd1 & Hc1 & Hr1).
  destruct (dispatcher_frame _ _ _ _ Hdisp) as (Hcl & Hca).
  destruct (dispatcher_channels _ _ _ _ Hdisp) as (Hc2 & Hr2 & Hs2 & Hd2).
  assert (Hw' : clients w' = clients w2 ∧ caches w' = caches w2 ∧
                submitted w' = submitted w2 ∧ delivered w' = delivered w2 ∧
                closed w' = closed w2 ∧ receiving w' = receiving w2).
  { simpl in Hdo. destruct err as [e|]; by injection Hdo as <- <-. }
  destruct Hw' as (Hcl' & Hca' & Hs' & Hd' & Hc' & Hr').
  split_and!; try congruence.
  - split; intros *; rewrite ?Hca', ?Hcl', ?Hca, ?Hcl; auto.
  - intros Hlive.
    destruct (processRequest_client_live _ _ _ _ _ Hlive Hreq) as [_ Hlive1].
    intros m host c. rewrite Hca', Hcl', Hca, Hcl. apply Hlive1.
Qed.

(** Closing only adds to the closed channels. *)
Lemma close_chan_grows ch (closed closed' : gset chan) x :
  close_chan ch closed = (x, closed') → closed ⊆ closed'.
Proof.
  unfold close_chan. destruct ch as [n|]; [|by intros [= <- <-]].
  destruct (decide (n ∈ closed)); intros [= <- <-]; set_solver.
Qed.

(** A call of Close is one or two steps of the system. *)
Lemma Close_pool_steps reqChan respChan h q ws w x closed' :
  Close h (closed w) = (x, closed') →
  rtc (pool_step reqChan respChan)
      (mkPool q ws w true)
      (mkPool q ws (set_closed (λ _, closed') w) (is_returned x)).
Proof.
  unfold Close.
  destruct (close_chan (CycleTLS.ReqChan h) (closed w)) as [x1 c1] eqn:H1.
  assert (Hfirst : pool_step reqChan respChan (mkPool q ws w true)
                     (mkPool q ws (set_closed (λ _, c1) w) (is_returned x1)))
    by (by eapply pool_close).
  destruct x1 as [[]| | |]; try (intros [= <- <-]; by apply rtc_once).
  intros H2. eapply rtc_l; [exact Hfirst|]. apply rtc_once.
  by apply (pool_close reqChan respChan (CycleTLS.RespChan h) q ws
              (set_closed (λ _, c1) w)).
Qed.

Lemma request_ok_keeps w w' fr :
  (∀ (p : ptr) (c : http_Client),
     clients w !! p = Some c → clients w' !! p = Some c) →
  request_ok w fr → request_ok w' fr.
Proof. intros Hkeep [Hq [c Hc]]. split; [done|]. exists c. by apply Hkeep. Qed.

Lemma worker_ok_keeps w w' s :
  (∀ (p : ptr) (c : http_Client),
     clients w !! p = Some c → clients w' !! p = Some c) →
  worker_ok w s → worker_ok w' s.
Proof. intros Hkeep. destruct s; simpl; eauto using request_ok_keeps. Qed.

(** The invariant looks at the heap, the caches, the channels' traffic and
    the closed channels only. *)
Lemma pool_invariant_world reqChan respChan w0 q ws w w' a a' :
  pool_invariant reqChan respChan w0 (mkPool q ws w a) →
  (caches_live w → caches_live w') →
  (∀ (p : ptr) (c : http_Client),
     clients w !! p = Some c → clients w' !! p = Some c) →
  submitted w' = submitted w → delivered w' = delivered w →
  closed w ⊆ closed w' →
  pool_invariant reqChan respChan w0 (mkPool q ws w' a').
Proof.
  intros (Hlive & Hlen & Hfin & Hoff & Hws & taken & results
          & Htaken & Hres & Hcount & Hqt & Hqr) Hlive' Hkeep Hsub Hdel Hclo.
  unfold pool_invariant, handed_since, results_since in *.
  cbn [offered workers world] in *. split_and!.
  - by apply Hlive'.
  - done.
  - intros i Hi. apply Hclo. eauto.
  - eapply Forall_impl; [exact Hoff|]. intros fr. by apply request_ok_keeps.
  - eapply Forall_impl; [exact Hws|]. intros s. by apply worker_ok_keeps.
  - exists taken, results. rewrite Hsub, Hdel. by split_and!.
Qed.

Lemma pool_step_alive reqChan respChan p p' :
  pool_step reqChan respChan p p' → alive p = true.
Proof. intros Hstep. destruct Hstep as [p p' []| | | | | | | | |]; done. Qed.

Lemma pool_invariant_start reqChan respChan w0 :
  caches_live w0 → pool_invariant reqChan respChan w0 (pool_start w0).
Proof.
  intros Hlive. unfold pool_invariant, pool_start.
  cbn [offered workers world].
  split_and!.
  - done.
  - apply length_replicate.
  - intros i Hi. apply lookup_replicate in Hi as [? _]. discriminate.
  - constructor.
  - by apply Forall_replicate.
  - exists [], []. unfold handed_since, results_since, busy.
    cbn [fmap list_fmap length]. rewrite !app_nil_r, sum_replicate_0 by done.
    by split_and!.
Qed.

Lemma pool_invariant_work reqChan respChan w0 p p' :
  pool_invariant reqChan respChan w0 p →
  pool_work_step reqChan respChan p p' →
  pool_invariant reqChan respChan w0 p'.
Proof.
  intros (Hlive & Hlen & Hfin & Hoff & Hws & taken & results
          & Htaken & Hres & Hcount & Hqt & Hqr) Hstep.
  destruct Hstep as [i l1 res l2 ws w Hopen Hi
                    |i q ws w res response w' Hi Hrun
                    |i q ws w response w' Hi Hsend];
    unfold pool_invariant, handed_since, results_since, busy in *;
    cbn [offered workers world] in *.
  - apply Forall_app in Hoff as [Hoff1 Hoff2].
    apply Forall_cons in Hoff2 as [Hres_ok Hoff2].
    pose proof (sum_insert in_flight ws i _ (Dispatching res) Hi) as Hbusy.
    simpl in Hbusy. simpl. split_and!.
    + done.
    + by rewrite length_insert.
    + intros j Hj.
      apply list_lookup_insert_Some in Hj as [(_ & [=] & _)|[_ Hj]]. eauto.
    + apply Forall_app. by split.
    + by apply Forall_insert.
    + exists (taken ++ [res]), results.
      rewrite Htaken, fmap_app, length_app. rewrite <- app_assoc. simpl.
      split_and!; try done; try lia.
      apply Forall_app. split; [done|]. constructor; [|done]. by destruct Hres_ok.
  - destruct (worker_dispatch_frame _ _ _ _ Hrun)
      as (Hcl & Hca & Hsub & Hdel & Hclo & _).
    pose proof (worker_dispatch_inv _ _ _ _ Hrun) as Hid.
    pose proof (sum_insert in_flight ws i _ (Sending response) Hi) as Hbusy.
    pose proof (Forall_lookup_1 _ _ _ _ Hws Hi) as [Hq _].
    simpl in Hbusy.
    assert (Hkeep : ∀ (p : ptr) (c : http_Client),
              clients w !! p = Some c → clients w' !! p = Some c)
      by (intros *; by rewrite Hcl).
    split_and!.
    + intros r host c. rewrite Hca, Hcl. apply Hlive.
    + by rewrite length_insert.
    + intros j Hj. rewrite Hclo.
      apply list_lookup_insert_Some in Hj as [(_ & [=] & _)|[_ Hj]]. eauto.
    + eapply Forall_impl; [exact Hoff|]. intros fr. by apply request_ok_keeps.
    + apply Forall_insert.
      * eapply Forall_impl; [exact Hws|]. intros s. by apply worker_ok_keeps.
      * simpl. unfold queued_result. unfold queued in Hq. by rewrite <- Hq.
    + exists taken, results. rewrite Hsub, Hdel. split_and!; try done; lia.
  - apply send_response_Returned in Hsend as (_ & _ & ->).
    pose proof (sum_insert in_flight ws i _ Receiving Hi) as Hbusy.
    simpl in Hbusy. simpl. split_and!.
    + done.
    + by rewrite length_insert.
    + intros j Hj.
      apply list_lookup_insert_Some in Hj as [(_ & [=] & _)|[_ Hj]]. eauto.
    + done.
    + by apply Forall_insert.
    + exists taken, (results ++ [response]).
      rewrite Hres, fmap_app, length_app. rewrite <- app_assoc. simpl.
      split_and!; try done; try lia.
      apply Forall_app. split; [done|]. constructor; [|done].
      by apply (Forall_lookup_1 _ _ _ _ Hws Hi).
Qed.

Lemma pool_invariant_step reqChan respChan w0 p p' :
  pool_invariant reqChan respChan w0 p →
  pool_step reqChan respChan p p' →
  alive p' = true →
  pool_invariant reqChan respChan w0 p'.
Proof.
  intros Hinv Hstep Halive.
  destruct Hstep as [p p' Hwork
                    |h URL o Method q ws w fr w' Hch Hrun
                    |h URL o Method q ws w x w' Hrun Hx
                    |l1 res l2 ws w Hclosed
                    |i q ws w res x w' Hi Hrun Hx
                    |i q ws w response x w' Hi Hsend Hx
                    |i q ws w Hclosed Hi
                    |ch q ws w x closed' Hclose
                    |h URL o Method q ws w x w' Hdo
                    |R q ws w];
    try discriminate Halive.
  - by eapply pool_invariant_work.
  - destruct (processRequest_channels _ _ _ _ _ Hrun) as (Hsub & Hdel & Hclo & _).
    destruct (processRequest_keeps _ _ _ _ _ Hrun) as [_ Hkeep].
    destruct (processRequest_Returned _ _ _ _ _ Hrun) as (_ & _ & _ & _ & Hopt & _).
    assert (Hlive' : caches_live w →
              caches_live w' ∧ fullRequest.client fr < length (clients w')).
    { intros Hlive.
      by destruct (processRequest_client_live _ _ _ _ _ Hlive Hrun). }
    pose proof Hinv as (Hlive & _).
    destruct (pool_invariant_world _ _ _ _ _ _ w' _ true Hinv)
      as (_ & Hlen & Hfin & Hoff & Hws & Hrest);
      [by intros; apply Hlive'|done|done|done|by rewrite Hclo|].
    unfold pool_invariant in *. cbn [offered workers world] in *.
    split_and!; try done.
    + by apply Hlive'.
    + apply Forall_app. split; [done|]. constructor; [|done]. split.
      * unfold queued. by rewrite Hopt.
      * apply lookup_lt_is_Some_2. by apply Hlive'.
  - destruct Hinv as (Hlive & Hlen & Hfin & Hoff & Hws & Hrest).
    unfold pool_invariant, busy in *. cbn [offered workers world] in *.
    pose proof (sum_insert in_flight ws i _ Finished Hi) as Hbusy.
    simpl in Hbusy.
    split_and!.
    + done.
    + by rewrite length_insert.
    + done.
    + done.
    + by apply Forall_insert.
    + destruct Hrest as (taken & results & ? & ? & ? & ? & ?).
      exists taken, results. split_and!; try done. lia.
  - eapply pool_invariant_world; [exact Hinv|done|done|done|done|].
    simpl. by eapply close_chan_grows.
  - destruct x as [r| | |]; try discriminate Halive.
    destruct (Do_frame _ _ _ _ _ _ _ Hdo) as ([_ Hkeep] & Hlive & Hsub & Hdel & Hclo & _).
    eapply pool_invariant_world; [exact Hinv|done|done|done|done|].
    by rewrite Hclo.
  - by eapply pool_invariant_world; [exact Hinv|..].
Qed.

(** The invariant holds in every state the pool reaches alive. *)
Lemma pool_invariant_steps reqChan respChan w0 p :
  caches_live w0 →
  rtc (pool_step reqChan respChan) (pool_start w0) p →
  alive p = true →
  pool_invariant reqChan respChan w0 p.
Proof.
  intros Hlive Hsteps.
  eapply (rtc_ind_r (λ p, alive p = true → pool_invariant reqChan respChan w0 p)
                    (pool_start w0)); [| |exact Hsteps].
  - intros _. by apply pool_invariant_start.
  - intros p1 p2 _ Hstep IH Halive.
    eapply pool_invariant_step; [|exact Hstep|exact Halive].
    apply IH. by eapply pool_step_alive.
Qed.



End Pool.

Section PoolClaims.
Context `{GoLib}.


End PoolClaims.

(** ** The headers of the built request (lines 216-234) *)

Section BuiltHeaders.
Context `{GoLib}.

(** X9.  The Host and User-Agent entries of a built request are those of
    the parsed URL and of the options, whatever the caller's headers were. *)
Lemma processRequest_Host_UserAgent h R w fr w' :
  textproto_CanonicalMIMEHeaderKey "Host" = "Host" →
  textproto_CanonicalMIMEHeaderKey "user-agent" = "User-Agent" →
  processRequest h R w = (Returned fr, w') →
  ∃ u, url_Parse (Options.URL (cycleTLSRequest.Options R)) = inr u ∧
       Request.Header (fullRequest.req fr) !! "Host" = Some [url_URL.Host u] ∧
       Request.Header (fullRequest.req fr) !! "User-Agent"
       = Some [Options.UserAgent (cycleTLSRequest.Options R)].
Proof.
  intros Hhost Hua Hrun.
  destruct (processRequest_Returned _ _ _ _ _ Hrun) as (u & r & Hu & _ & _ & _ & Hcase).
  exists u. split; [done|].
  assert (Hfin : ∃ c w1, finish_request R u c w1 = (Returned fr, w')).
  { destruct Hcase as [[_ Hfin]|(_ & _ & built & _ & Hfin)]; eauto. }
  destruct Hfin as (c & w1 & Hfin). unfold finish_request in Hfin.
  destruct (http_NewRequest _ _ _) as [err|req]; [discriminate|].
  injection Hfin as <- _. simpl. unfold built_Header, Header_Set.
  rewrite Hhost, Hua. split.
  - rewrite lookup_insert_ne by done. by rewrite lookup_insert_eq.
  - by rewrite lookup_insert_eq.
Qed.
(** Appending the caller's headers leaves alone every key that none of
    their names canonicalises to. *)
Lemma append_headers_other (K : string) (hs : list (string * string)) (hdr : http_Header) :
  Forall (λ kv : string * string, textproto_CanonicalMIMEHeaderKey kv.1 ≠ K) hs →
  append_headers hdr hs !! K = hdr !! K.
Proof.
  unfold append_headers. intros Hall. revert hdr.
  induction Hall as [|[k v] hs Hk _ IH]; intros hdr; simpl; [done|].
  rewrite IH. destruct (decide (k ≠ "Content-Length")); [|done].
  unfold Header_Set. by rewrite lookup_insert_ne.
Qed.

(** X10.  The ordered names are what the built request carries under
    fhttp's header-order key, unless a header of the caller lands on that
    key. *)
Lemma processRequest_header_order h R w fr w' :
  range_visits_all →
  let o := cycleTLSRequest.Options R in
  (∀ k, k ∈ dom (Options.Headers o) →
        textproto_CanonicalMIMEHeaderKey k ≠ http_HeaderOrderKey) →
  textproto_CanonicalMIMEHeaderKey "Host" ≠ http_HeaderOrderKey →
  textproto_CanonicalMIMEHeaderKey "user-agent" ≠ http_HeaderOrderKey →
  processRequest h R w = (Returned fr, w') →
  Request.Header (fullRequest.req fr) !! http_HeaderOrderKey
  = Some (precedence_names (effectiveHeaderOrder (Options.HeaderOrder o))
                           (Options.Headers o)).
Proof.
  intros Hrange o Hkeys Hhost Hua Hrun.
  destruct (processRequest_Returned _ _ _ _ _ Hrun) as (u & r & _ & _ & _ & _ & Hcase).
  assert (Hfin : ∃ c w1, finish_request R u c w1 = (Returned fr, w')).
  { destruct Hcase as [[_ Hfin]|(_ & _ & built & _ & Hfin)]; eauto. }
  destruct Hfin as (c & w1 & Hfin). unfold finish_request in Hfin. fold o in Hfin.
  destruct (http_NewRequest _ _ _) as [err|req]; [discriminate|].
  injection Hfin as <- _. simpl. unfold built_Header, Header_Set.
  rewrite !lookup_insert_ne by done.
  rewrite append_headers_other.
  - rewrite lookup_insert_eq. unfold ordered_names_at.
    by rewrite (orderHeaders_names _ _ _ Hrange).
  - apply Forall_forall. intros [k v] Hin. simpl.
    rewrite (Hrange string _ (Options.Headers o)) in Hin.
    apply elem_of_map_to_list in Hin. apply Hkeys, elem_of_dom. eauto.
Qed.
End BuiltHeaders.

(** * Further properties *)

(** ** The response of the dispatcher (lines 76-99) *)

Section Flatten.
Context `{GoLib}.

Lemma flatten_values_lookup (name name' : string) (values : list string)
    (acc : gmap string string) :
  foldl (λ headers value, <[name := value]> headers) acc values !! name'
  = if decide (name = name')
    then match last values with Some v => Some v | None => acc !! name' end
    else acc !! name'.
Proof.
  revert acc. induction values as [|v values IH]; intros acc; simpl.
  - by destruct (decide (name = name')).
  - rewrite IH, last_cons. destruct (decide (name = name')) as [<-|Hne].
    + destruct (last values); [done|]. by rewrite lookup_insert_eq.
    + by rewrite lookup_insert_ne.
Qed.

Lemma flatten_fold_lookup (hs : list (string * list string)) (acc : gmap string string)
    (name : string) :
  NoDup hs.*1 →
  foldl (λ headers '(name, values),
           if decide (name = "Set-Cookie")
           then <[name := strings_Join values "/,/"]> headers
           else foldl (λ headers value, <[name := value]> headers) headers values)
        acc hs !! name
  = match (list_to_map hs : gmap string (list string)) !! name with
    | Some values =>
        match flattened name values with Some v => Some v | None => acc !! name end
    | None => acc !! name
    end.
Proof.
  revert acc. induction hs as [|[k values] hs IH]; intros acc Hnd; simpl.
  - by rewrite lookup_empty.
  - apply NoDup_cons in Hnd as [Hk Hnd]. rewrite (IH _ Hnd).
    destruct (decide (k = name)) as [->|Hne].
    + rewrite lookup_insert_eq.
      assert (Hnone : (list_to_map hs : gmap string (list string)) !! name = None)
        by (by apply not_elem_of_list_to_map_1).
      rewrite Hnone. unfold flattened.
      destruct (decide (name = "Set-Cookie")) as [Hsc|Hsc].
      * by rewrite lookup_insert_eq.
      * rewrite flatten_values_lookup. rewrite decide_True by done.
        by destruct (last values).
    + rewrite lookup_insert_ne by done.
      assert (Hacc : (if decide (k = "Set-Cookie")
                      then <[k := strings_Join values "/,/"]> acc
                      else foldl (λ headers value, <[k := value]> headers) acc values)
                     !! name = acc !! name).
      { destruct (decide (k = "Set-Cookie")); [by rewrite lookup_insert_ne|].
        rewrite flatten_values_lookup. by rewrite decide_False. }
      by rewrite Hacc.
Qed.

(** X1.  Flattening the headers of a response keeps, for every name, the
    values joined by "/,/" when the name is Set-Cookie and the last value
    otherwise; a name without values other than Set-Cookie is dropped.  The
    order in which the header map is visited does not matter. *)
Theorem flatten_headers_lookup (Header : http_Header)
    (hs : list (string * list string)) (name : string) :
  hs ≡ₚ map_to_list Header →
  flatten_headers hs !! name = Header !! name ≫= flattened name.
Proof.
  intros Hperm. unfold flatten_headers.
  assert (Hnd : NoDup hs.*1).
  { rewrite Hperm. apply NoDup_fst_map_to_list. }
  rewrite (flatten_fold_lookup hs ∅ name Hnd).
  assert (Hmap : (list_to_map hs : gmap string (list string)) = Header).
  { rewrite <- (list_to_map_to_list Header). by apply list_to_map_proper. }
  rewrite Hmap, lookup_empty.
  destruct (Header !! name) as [values|]; simpl; [|done].
  by destruct (flattened name values).
Qed.

(** X2.  When the client is live, the transport answers and the body is
    read, the dispatcher returns, with a nil error, the response made of the
    request's identifier, the status of the answer, the body decoded under
    the Content-Encoding and Content-Type values of the answer, and the
    flattened headers; it writes no log line and makes one round trip. *)
Theorem dispatcher_success (res : fullRequest.t) (w : World) (c : http_Client)
    (resp : http_Response.t) (bodyBytes : string) :
  range_visits_all →
  clients w !! fullRequest.client res = Some c →
  client_Do (trips w) c (fullRequest.req res) = inr resp →
  ioutil_ReadAll (http_Response.Body resp) = inr bodyBytes →
  ∃ headers,
    dispatcher res w
    = (Returned
         (Response.mk (cycleTLSRequest.RequestID (fullRequest.options res))
            (http_Response.StatusCode resp)
            (DecompressBody bodyBytes
               (default [] (http_Response.Header resp !! "Content-Encoding"))
               (default [] (http_Response.Header resp !! "Content-Type")))
            headers, None),
       set_ranges S (set_trips S w)) ∧
    ∀ name, headers !! name = http_Response.Header resp !! name ≫= flattened name.
Proof.
  intros Hrange Hc Hdo Hread. eexists. split.
  - unfold dispatcher, bind, deref_client, round_trip. rewrite Hc. simpl.
    rewrite Hdo, Hread. reflexivity.
  - intros name. apply flatten_headers_lookup. apply Hrange.
Qed.

(** The dispatcher reads of a request its wire form, its client and its
    identifier only. *)
Lemma dispatcher_same_wire fr1 fr2 :
  same_wire fr1 fr2 → dispatcher fr1 = dispatcher fr2.
Proof.
  intros (Hreq & Hcl & Hid). unfold dispatcher. by rewrite Hreq, Hcl, Hid.
Qed.

(** X3.  Whatever the dispatcher does, it builds no client, writes no cache
    and sends nothing on a channel, and it makes at most one round trip. *)
Theorem dispatcher_effects (res : fullRequest.t) (w : World)
    (x : outcome (Response.t * option error)) (w' : World) :
  dispatcher res w = (x, w') →
  clients w' = clients w ∧ caches w' = caches w ∧ ncaches w' = ncaches w ∧
  submitted w' = submitted w ∧ delivered w' = delivered w ∧
  nchans w' = nchans w ∧ pools w' = pools w ∧
  (trips w ≤ trips w' ≤ S (trips w))%nat ∧
  (∀ response, x = Returned (response, None) → logs w' = logs w).
Proof.
  unfold dispatcher, bind, deref_client, round_trip.
  destruct (clients w !! fullRequest.client res) as [c|];
    [|intros [= <- <-]; repeat split; (done || lia)].
  simpl.
  destruct (client_Do _ _ _) as [err|resp];
    [intros [= <- <-]; simpl; repeat split; (done || lia)|].
  destruct (ioutil_ReadAll _) as [err|bodyBytes];
    intros [= <- <-]; simpl; repeat split; (done || lia).
Qed.
End Flatten.

(** ** More on processRequest (lines 132-236) *)

Section ProcessRequestMore.
Context `{GoLib}.

(** X4.  Do reads its method through [strings.ToUpper]: two methods with the
    same upper-case form give the same call. *)
Theorem Do_method_upper_case (h : CycleTLS.t) (URL : string) (o : Options.t)
    (Method1 Method2 : string) (w : World) :
  strings_ToUpper Method1 = strings_ToUpper Method2 →
  Do h URL o Method1 w = Do h URL o Method2 w.
Proof.
  intros Hupper. unfold Do. unfold bind at 1. unfold bind at 3.
  rewrite !processRequest_unfold. cbv zeta. unfold cached_client. simpl.
  destruct (url_Parse URL) as [err|u]; [done|].
  assert (Hfin : ∀ c w1,
    match finish_request
            (cycleTLSRequest.mk _ "cycleTLSRequest"
               (Options.set_Method Method1 (Options.set_URL URL o))) u c w1 with
    | (Returned fr1, w2) =>
        ∃ fr2, finish_request
                 (cycleTLSRequest.mk _ "cycleTLSRequest"
                    (Options.set_Method Method2 (Options.set_URL URL o))) u c w1
               = (Returned fr2, w2) ∧ same_wire fr1 fr2
    | (x, w2) =>
        ∃ x', finish_request
                (cycleTLSRequest.mk _ "cycleTLSRequest"
                   (Options.set_Method Method2 (Options.set_URL URL o))) u c w1
              = (x', w2) ∧
              match x, x' with
              | Panicked v, Panicked v' => v = v'
              | Exited n, Exited n' => n = n'
              | Blocked, Blocked => True
              | _, _ => False
              end
    end).
  { intros c w1. unfold finish_request. simpl. rewrite Hupper.
    destruct (http_NewRequest _ _ _) as [err|req]; [by eexists|].
    eexists. split; [reflexivity|]. by repeat split. }
  assert (Hgoal : ∀ c w1,
    match finish_request
            (cycleTLSRequest.mk _ "cycleTLSRequest"
               (Options.set_Method Method1 (Options.set_URL URL o))) u c w1 with
    | (Returned a, w') =>
        (r ←- dispatcher a;
         match r.2 with
         | Some err => log_Print ("Request Failed: " +:+ Error err) ;;- ret (r.1, Some err)
         | None => ret (r.1, None)
         end) w'
    | (Panicked v, w') => (Panicked v, w')
    | (Exited c0, w') => (Exited c0, w')
    | (Blocked, w') => (Blocked, w')
    end
    = match finish_request
              (cycleTLSRequest.mk _ "cycleTLSRequest"
                 (Options.set_Method Method2 (Options.set_URL URL o))) u c w1 with
      | (Returned a, w') =>
          (r ←- dispatcher a;
           match r.2 with
           | Some err => log_Print ("Request Failed: " +:+ Error err) ;;- ret (r.1, Some err)
           | None => ret (r.1, None)
           end) w'
      | (Panicked v, w') => (Panicked v, w')
      | (Exited c0, w') => (Exited c0, w')
      | (Blocked, w') => (Blocked, w')
      end).
  { intros c w1. specialize (Hfin c w1).
    destruct (finish_request _ u c w1) as [[fr1|v|n|] w2].
    - destruct Hfin as (fr2 & -> & Hsame). unfold bind at 1 3.
      by rewrite (dispatcher_same_wire _ _ Hsame).
    - destruct Hfin as ([|v'|n'|] & -> & Hx); try done. by subst.
    - destruct Hfin as ([|v'|n'|] & -> & Hx); try done. by subst.
    - by destruct Hfin as ([|v'|n'|] & -> & Hx). }
  destruct (CycleTLS.cacheClients h) as [r|].
  - destruct (caches w r !! url_URL.Host u) as [c|]; [apply Hgoal|].
    destruct (newClient _ _ _ _ _) as [err|built]; [done|]. apply Hgoal.
  - by destruct (newClient _ _ _ _ _) as [err|built].
Qed.

(** X5.  A request that [http.NewRequest] refuses ends the process at line
    160, after the client for the host was taken from the cache or built
    and entered in it. *)
Theorem processRequest_NewRequest_error (h : CycleTLS.t) (R : cycleTLSRequest.t)
    (w : World) (u : url_URL.t) (r : mapref) (err : error) :
  let o := cycleTLSRequest.Options R in
  url_Parse (Options.URL o) = inr u →
  CycleTLS.cacheClients h = Some r →
  http_NewRequest (strings_ToUpper (Options.Method o)) (Options.URL o) (Options.Body o)
  = inl err →
  (∀ c, caches w r !! url_URL.Host u = Some c →
        processRequest h R w = (Exited 1, set_logs (λ l, l ++ [Error err]) w))
  ∧ (∀ built,
       caches w r !! url_URL.Host u = None →
       newClient (browser.mk _ (Options.Ja3 o) (Options.UserAgent o) (Options.Cookies o))
                 (Options.Timeout o) (Options.DisableRedirect o) (Options.UserAgent o)
                 (Options.Proxy o) = inr built →
       processRequest h R w
       = (Exited 1,
          set_logs (λ l, l ++ [Error err])
            (set_caches (λ s, <[r := <[url_URL.Host u := length (clients w)]> (s r)]> s)
               (set_clients (λ l, l ++ [built]) w)))).
Proof.
  intros o Hu Hr Hreq. split.
  - intros c Hc. rewrite (processRequest_hit _ _ _ _ _ _ Hu Hr Hc).
    unfold finish_request. fold o. by rewrite Hreq.
  - intros built Hc Hnew. rewrite processRequest_unfold. cbv zeta. fold o.
    unfold cached_client. rewrite Hu, Hr, Hc, Hnew.
    unfold finish_request. fold o. by rewrite Hreq.
Qed.

Lemma finish_request_effects R u c w1 x w' :
  finish_request R u c w1 = (x, w') →
  nchans w' = nchans w1 ∧ pools w' = pools w1 ∧
  (∀ fr, x = Returned fr →
         logs w' = logs w1 ∧
         ranges w' = ranges w1
                     + S (length (effectiveHeaderOrder
                                    (Options.HeaderOrder (cycleTLSRequest.Options R))))).
Proof.
  unfold finish_request.
  destruct (http_NewRequest _ _ _) as [err|req]; intros [= <- <-]; simpl;
    repeat split; try done; by simplify_eq/=.
Qed.

(** X6.  Building a request uses neither the network nor the channels: it
    makes no round trip, sends nothing and makes no channel, pool or map; it
    builds at most one client; and when it returns it has written no log
    line and has ranged over the headers once per key of the precedence
    list in force and once more. *)
Theorem processRequest_effects (h : CycleTLS.t) (R : cycleTLSRequest.t) (w : World)
    (x : outcome fullRequest.t) (w' : World) :
  processRequest h R w = (x, w') →
  trips w' = trips w ∧ submitted w' = submitted w ∧ delivered w' = delivered w ∧
  nchans w' = nchans w ∧ pools w' = pools w ∧ ncaches w' = ncaches w ∧
  (clients w' = clients w ∨ ∃ built, clients w' = clients w ++ [built]) ∧
  x ≠ Blocked ∧
  (∀ fr, x = Returned fr →
         logs w' = logs w ∧
         ranges w' = ranges w
                     + S (length (effectiveHeaderOrder
                                    (Options.HeaderOrder (cycleTLSRequest.Options R))))).
Proof.
  rewrite processRequest_unfold. cbv zeta. unfold cached_client.
  destruct (url_Parse _) as [err|u];
    [intros [= <- <-]; repeat split; try done; by left|].
  assert (Hfin : ∀ c w1,
            trips w1 = trips w → submitted w1 = submitted w →
            delivered w1 = delivered w → nchans w1 = nchans w → pools w1 = pools w →
            ncaches w1 = ncaches w → logs w1 = logs w → ranges w1 = ranges w →
            (clients w1 = clients w ∨ ∃ built, clients w1 = clients w ++ [built]) →
            finish_request R u c w1 = (x, w') →
            trips w' = trips w ∧ submitted w' = submitted w ∧ delivered w' = delivered w ∧
            nchans w' = nchans w ∧ pools w' = pools w ∧ ncaches w' = ncaches w ∧
            (clients w' = clients w ∨ ∃ built, clients w' = clients w ++ [built]) ∧
            x ≠ Blocked ∧
            (∀ fr, x = Returned fr →
                   logs w' = logs w ∧
                   ranges w' = ranges w
                     + S (length (effectiveHeaderOrder
                                    (Options.HeaderOrder (cycleTLSRequest.Options R)))))).
  { intros c w1 Ht Hs Hd Hn Hp Hm Hl Hrg Hcl Hfin.
    destruct (finish_request_frame _ _ _ _ _ _ Hfin)
      as (Hcl' & _ & Hm' & Hs' & Hd' & Ht' & _ & Hnb).
    destruct (finish_request_effects _ _ _ _ _ _ Hfin) as (Hn' & Hp' & Hret).
    rewrite Ht', Hs', Hd', Hn', Hp', Hm', Hcl'. split_and!; try done.
    intros fr Hx. destruct (Hret fr Hx) as [-> ->]. by rewrite Hl, Hrg. }
  destruct (CycleTLS.cacheClients h) as [r|].
  - destruct (caches w r !! url_URL.Host u) as [c|].
    + apply Hfin; try done. by left.
    + destruct (newClient _ _ _ _ _) as [err|built];
        [intros [= <- <-]; repeat split; try done; by left|].
      apply Hfin; try done. right. by exists built.
  - destruct (newClient _ _ _ _ _) as [err|built]; intros [= <- <-];
      repeat split; try done; [by left|]. right. by exists built.
Qed.

(** X7.  Whatever its outcome, processRequest keeps the cache sound: every
    cached pointer stays inside the heap, and no pointer gets cached under
    two hosts or in two maps. *)
Theorem processRequest_keeps_cache_sound (h : CycleTLS.t) (R : cycleTLSRequest.t)
    (w : World) (x : outcome fullRequest.t) (w' : World) :
  caches_live w → clients_unshared w →
  processRequest h R w = (x, w') →
  caches_live w' ∧ clients_unshared w'.
Proof.
  intros Hlive Hun. rewrite processRequest_unfold. cbv zeta. unfold cached_client.
  destruct (url_Parse _) as [err|u]; [by intros [= <- <-]|].
  assert (Hfin : ∀ c w1, caches_live w1 → clients_unshared w1 →
                         finish_request R u c w1 = (x, w') →
                         caches_live w' ∧ clients_unshared w').
  { intros c w1 Hl1 Hu1 Hfin.
    destruct (finish_request_frame _ _ _ _ _ _ Hfin) as (Hcl & Hca & _).
    split.
    - intros r' host c'. rewrite Hca, Hcl. apply Hl1.
    - intros r1 r2 h1 h2 c'. rewrite Hca. apply Hu1. }
  assert (Hgrow : ∀ built, caches_live (set_clients (λ l, l ++ [built]) w)).
  { intros built r' host c' Hc'. simpl in *. rewrite length_app. simpl.
    apply Hlive in Hc'. lia. }
  destruct (CycleTLS.cacheClients h) as [r|].
  - destruct (caches w r !! url_URL.Host u) as [c|] eqn:Hc; [by apply Hfin|].
    destruct (newClient _ _ _ _ _) as [err|built]; [by intros [= <- <-]|].
    assert (Hlook : ∀ r' host c',
              (<[r := <[url_URL.Host u := length (clients w)]> (caches w r)]> (caches w))
                r' !! host = Some c' →
              (r' = r ∧ host = url_URL.Host u ∧ c' = length (clients w)) ∨
              caches w r' !! host = Some c').
    { intros r' host c'. destruct (decide (r = r')) as [<-|Hne].
      - rewrite fn_lookup_insert.
        destruct (decide (url_URL.Host u = host)) as [<-|Hne].
        + rewrite lookup_insert_eq. intros [= <-]. by left.
        + rewrite lookup_insert_ne by done. by right.
      - rewrite fn_lookup_insert_ne by done. by right. }
    apply Hfin.
    + intros r' host c' Hc'. simpl in *. rewrite length_app. simpl.
      apply Hlook in Hc' as [(_ & _ & ->)|Hc']; [lia|]. apply Hlive in Hc'. lia.
    + intros r1 r2 h1 h2 c' H1 H2. simpl in *.
      apply Hlook in H1 as [(-> & -> & ->)|H1];
        apply Hlook in H2 as [(-> & -> & Heq)|H2]; try done.
      * apply Hlive in H2. lia.
      * subst c'. apply Hlive in H1. lia.
      * by eapply Hun.
  - destruct (newClient _ _ _ _ _) as [err|built]; intros [= <- <-]; [done|].
    split; [apply Hgrow|]. intros r1 r2 h1 h2 c'. simpl. apply Hun.
Qed.

(** X8.  The first request to a host through a handle builds one client,
    from the fingerprint, user agent, cookies, timeout, redirect flag and
    proxy of this very request, puts it at a fresh address and enters that
    address in the handle's cache under the host of the URL, leaving every
    other entry as it was. *)
Theorem processRequest_first_request_builds (h : CycleTLS.t) (R : cycleTLSRequest.t)
    (w : World) (u : url_URL.t) (fr : fullRequest.t) (w' : World) :
  let o := cycleTLSRequest.Options R in
  url_Parse (Options.URL o) = inr u →
  cached_client h w (url_URL.Host u) = None →
  processRequest h R w = (Returned fr, w') →
  ∃ r built,
    CycleTLS.cacheClients h = Some r ∧
    newClient (browser.mk _ (Options.Ja3 o) (Options.UserAgent o) (Options.Cookies o))
              (Options.Timeout o) (Options.DisableRedirect o) (Options.UserAgent o)
              (Options.Proxy o) = inr built ∧
    fullRequest.client fr = length (clients w) ∧
    clients w' = clients w ++ [built] ∧
    clients w' !! fullRequest.client fr = Some built ∧
    caches w' = <[r := <[url_URL.Host u := fullRequest.client fr]> (caches w r)]> (caches w).
Proof.
  intros o Hu Hmiss Hrun.
  destruct (processRequest_Returned _ _ _ _ _ Hrun) as (u' & r & Hu' & Hr & _ & _ & Hcase).
  fold o in Hu'. rewrite Hu in Hu'. injection Hu' as <-.
  unfold cached_client in Hmiss. rewrite Hr in Hmiss.
  destruct Hcase as [[Hhit _]|(_ & Hc & built & Hnew & Hfin)]; [congruence|].
  destruct (finish_request_frame _ _ _ _ _ _ Hfin) as (Hcl & Hca & _).
  simpl in Hcl, Hca. exists r, built. rewrite Hcl, Hca, Hc.
  repeat split; try done.
  rewrite lookup_app_r by done. by rewrite Nat.sub_diag.
Qed.
End ProcessRequestMore.

(** ** More on the headers of the built request (lines 216-234) *)

Section BuiltHeadersMore.
Context `{GoLib}.

(** The Header of a request that was built, in terms of the visiting order
    of the caller's headers. *)
Lemma processRequest_built_Header h R w fr w' :
  range_visits_all →
  processRequest h R w = (Returned fr, w') →
  let o := cycleTLSRequest.Options R in
  ∃ u hs names,
    url_Parse (Options.URL o) = inr u ∧
    hs ≡ₚ map_to_list (Options.Headers o) ∧
    Request.Header (fullRequest.req fr) = built_Header names hs u o.
Proof.
  intros Hrange Hrun o.
  destruct (processRequest_Returned _ _ _ _ _ Hrun) as (u & r & Hu & _ & _ & _ & Hcase).
  assert (Hfin : ∃ c w1, finish_request R u c w1 = (Returned fr, w')).
  { destruct Hcase as [[_ Hfin]|(_ & _ & built & _ & Hfin)]; eauto. }
  destruct Hfin as (c & w1 & Hfin). unfold finish_request in Hfin. fold o in Hfin.
  destruct (http_NewRequest _ _ _) as [err|req]; [discriminate|].
  injection Hfin as <- _. eexists u, _, _. split; [done|]. split; [|reflexivity].
  apply Hrange.
Qed.

(** Appending the caller's headers leaves a key alone when only the exact
    name Content-Length could land on it. *)
Lemma append_headers_guarded (K : string) (hs : list (string * string)) (hdr : http_Header) :
  Forall (λ kv : string * string,
            kv.1 ≠ "Content-Length" → textproto_CanonicalMIMEHeaderKey kv.1 ≠ K) hs →
  append_headers hdr hs !! K = hdr !! K.
Proof.
  unfold append_headers. intros Hall. revert hdr.
  induction Hall as [|[k v] hs Hk _ IH]; intros hdr; simpl; [done|].
  rewrite IH. destruct (decide (k ≠ "Content-Length")) as [Hne|]; [|done].
  unfold Header_Set. rewrite lookup_insert_ne; [done|]. by apply Hk.
Qed.

(** The header whose canonical name no other header shares is set. *)
Lemma append_headers_set (k v : string) (hs : list (string * string)) (hdr : http_Header) :
  k ≠ "Content-Length" →
  (k, v) ∈ hs →
  (∀ k' v', (k', v') ∈ hs →
            textproto_CanonicalMIMEHeaderKey k' = textproto_CanonicalMIMEHeaderKey k →
            k' = k ∧ v' = v) →
  append_headers hdr hs !! textproto_CanonicalMIMEHeaderKey k = Some [v].
Proof.
  intros Hcl. unfold append_headers.
  induction hs as [|[k' v'] hs IH] using rev_ind; intros Hin Huniq.
  - by apply elem_of_nil in Hin.
  - rewrite foldl_app. simpl.
    destruct (decide (textproto_CanonicalMIMEHeaderKey k'
                      = textproto_CanonicalMIMEHeaderKey k)) as [Heq|Hne].
    + destruct (Huniq k' v') as [-> ->]; [apply elem_of_app; right; left|done|].
      rewrite decide_True by done. unfold Header_Set. by rewrite lookup_insert_eq.
    + assert (Hin' : (k, v) ∈ hs).
      { apply elem_of_app in Hin as [Hin|Hin]; [done|].
        apply list_elem_of_singleton in Hin. by simplify_eq. }
      assert (IH' : foldl (λ h '(k, v),
                             if decide (k ≠ "Content-Length") then Header_Set h k v else h)
                          hdr hs !! textproto_CanonicalMIMEHeaderKey k = Some [v]).
      { apply IH; [done|]. intros k2 v2 Hin2. apply Huniq. apply elem_of_app. by left. }
      destruct (decide (k' ≠ "Content-Length")); [|done].
      unfold Header_Set. by rewrite lookup_insert_ne.
Qed.

(** X11.  The built request carries the four pseudo-header names, in the
    fixed order, under fhttp's pseudo-header-order key, unless a header of
    the caller lands on that key. *)
Theorem processRequest_pseudo_header_order (h : CycleTLS.t) (R : cycleTLSRequest.t)
    (w : World) (fr : fullRequest.t) (w' : World) :
  range_visits_all →
  let o := cycleTLSRequest.Options R in
  http_HeaderOrderKey ≠ http_PHeaderOrderKey →
  (∀ k, k ∈ dom (Options.Headers o) →
        textproto_CanonicalMIMEHeaderKey k ≠ http_PHeaderOrderKey) →
  textproto_CanonicalMIMEHeaderKey "Host" ≠ http_PHeaderOrderKey →
  textproto_CanonicalMIMEHeaderKey "user-agent" ≠ http_PHeaderOrderKey →
  processRequest h R w = (Returned fr, w') →
  Request.Header (fullRequest.req fr) !! http_PHeaderOrderKey
  = Some [":method"; ":authority"; ":scheme"; ":path"].
Proof.
  intros Hrange o Hkeys Hcaller Hhost Hua Hrun.
  destruct (processRequest_built_Header _ _ _ _ _ Hrange Hrun)
    as (u & hs & names & _ & Hperm & ->).
  unfold built_Header, Header_Set. rewrite !lookup_insert_ne by done.
  rewrite append_headers_guarded.
  - rewrite lookup_insert_ne by done. by rewrite lookup_insert_eq.
  - apply Forall_forall. intros [k v] Hin _. simpl.
    rewrite Hperm in Hin. apply elem_of_map_to_list in Hin.
    apply Hcaller, elem_of_dom. eauto.
Qed.

(** X12.  A header of the caller whose name is not exactly Content-Length,
    and whose canonical name is that of no other header of the caller nor of
    Host or User-Agent, is on the built request under its canonical name
    with its value, whether the precedence list names it or not. *)
Theorem processRequest_passes_header (h : CycleTLS.t) (R : cycleTLSRequest.t)
    (w : World) (fr : fullRequest.t) (w' : World) (k v : string) :
  range_visits_all →
  let o := cycleTLSRequest.Options R in
  Options.Headers o !! k = Some v →
  k ≠ "Content-Length" →
  (∀ k', k' ∈ dom (Options.Headers o) →
         textproto_CanonicalMIMEHeaderKey k' = textproto_CanonicalMIMEHeaderKey k →
         k' = k) →
  textproto_CanonicalMIMEHeaderKey "Host" ≠ textproto_CanonicalMIMEHeaderKey k →
  textproto_CanonicalMIMEHeaderKey "user-agent" ≠ textproto_CanonicalMIMEHeaderKey k →
  processRequest h R w = (Returned fr, w') →
  Request.Header (fullRequest.req fr) !! textproto_CanonicalMIMEHeaderKey k = Some [v].
Proof.
  intros Hrange o Hkv Hcl Huniq Hhost Hua Hrun.
  destruct (processRequest_built_Header _ _ _ _ _ Hrange Hrun)
    as (u & hs & names & _ & Hperm & ->).
  unfold built_Header, Header_Set. rewrite !lookup_insert_ne by done.
  apply append_headers_set; [done| |].
  - rewrite Hperm. by apply elem_of_map_to_list.
  - intros k' v' Hin Heq. rewrite Hperm in Hin. apply elem_of_map_to_list in Hin.
    assert (k' = k) as -> by (apply Huniq; [apply elem_of_dom; eauto|done]).
    fold o in Hin. split; [done|congruence].
Qed.

(** X13.  A header that the caller names exactly Content-Length is left
    out: when no other header of the caller has that canonical name, the
    built request has no Content-Length entry. *)
Theorem processRequest_drops_exact_Content_Length (h : CycleTLS.t)
    (R : cycleTLSRequest.t) (w : World) (fr : fullRequest.t) (w' : World) :
  range_visits_all →
  let o := cycleTLSRequest.Options R in
  (∀ k, k ∈ dom (Options.Headers o) → k ≠ "Content-Length" →
        textproto_CanonicalMIMEHeaderKey k ≠ "Content-Length") →
  http_HeaderOrderKey ≠ "Content-Length" →
  http_PHeaderOrderKey ≠ "Content-Length" →
  textproto_CanonicalMIMEHeaderKey "Host" ≠ "Content-Length" →
  textproto_CanonicalMIMEHeaderKey "user-agent" ≠ "Content-Length" →
  processRequest h R w = (Returned fr, w') →
  Request.Header (fullRequest.req fr) !! "Content-Length" = None.
Proof.
  intros Hrange o Hcaller Hhok Hphok Hhost Hua Hrun.
  destruct (processRequest_built_Header _ _ _ _ _ Hrange Hrun)
    as (u & hs & names & _ & Hperm & ->).
  unfold built_Header, Header_Set. rewrite !lookup_insert_ne by done.
  rewrite append_headers_guarded.
  - rewrite !lookup_insert_ne by done. apply lookup_empty.
  - apply Forall_forall. intros [k v] Hin Hne. simpl in *.
    rewrite Hperm in Hin. apply elem_of_map_to_list in Hin.
    apply Hcaller; [apply elem_of_dom; eauto|done].
Qed.
End BuiltHeadersMore.

(** ** More on header ordering (lines 202-214) *)

Section HeaderOrderMore.
Context `{GoLib}.

Lemma matches_names key (Headers : gmap string string) :
  matches key Headers
  = length (filter (λ k, key = strings_ToLower k) (elements (dom Headers))).
Proof.
  unfold matches.
  assert (Hfst : ∀ l : list (string * string),
            length (filter (λ kv : string * string, key = strings_ToLower kv.1) l)
            = length (filter (λ k, key = strings_ToLower k) l.*1)).
  { induction l as [|[k v] l IH]; [done|]. rewrite fmap_cons, !filter_cons. simpl.
    destruct (decide (key = strings_ToLower k)); simpl; by rewrite IH. }
  rewrite Hfst. apply Permutation_length. apply filter_Permutation.
  apply NoDup_Permutation.
  - apply NoDup_fst_map_to_list.
  - apply NoDup_elements.
  - intros k. rewrite elem_of_elements, elem_of_dom. split.
    + intros Hk. apply list_elem_of_fmap in Hk as ([k' v] & -> & Hin).
      apply elem_of_map_to_list in Hin. eauto.
    + intros [v Hv]. apply list_elem_of_fmap. exists (k, v). split; [done|].
      by apply elem_of_map_to_list.
Qed.

(** X14.  The ordered header names depend on the names of the headers only:
    two header maps with the same names, whatever their values, are ordered
    alike. *)
Theorem orderHeaders_values_irrelevant (HeaderOrder : list string)
    (Headers1 Headers2 : gmap string string) (w1 w2 : World) :
  range_visits_all →
  dom Headers1 = dom Headers2 →
  ∃ names,
    (orderHeaders HeaderOrder Headers1 w1).1 = Returned names ∧
    (orderHeaders HeaderOrder Headers2 w2).1 = Returned names.
Proof.
  intros Hrange Hdom. eexists. rewrite !(orderHeaders_names _ _ _ Hrange). simpl.
  split; [reflexivity|]. f_equal. unfold precedence_names.
  induction (effectiveHeaderOrder HeaderOrder) as [|key rest IH]; [done|].
  change ((key :: rest) ≫= (λ key, replicate (matches key Headers2) key))
    with (replicate (matches key Headers2) key
            ++ (rest ≫= (λ key, replicate (matches key Headers2) key))).
  change ((key :: rest) ≫= (λ key, replicate (matches key Headers1) key))
    with (replicate (matches key Headers1) key
            ++ (rest ≫= (λ key, replicate (matches key Headers1) key))).
  rewrite IH. by rewrite !matches_names, Hdom.
Qed.
End HeaderOrderMore.

(** ** More on Do, Init and Close *)

Section CallsMore.
Context `{GoLib}.

(** X15.  When reading the body fails, Do returns the error together with
    the zero response, which has lost the request's identifier, and two log
    lines were written: one by the dispatcher, one by Do. *)
Theorem Do_body_read_failure (h : CycleTLS.t) (URL : string) (o : Options.t)
    (Method : string) (w : World) (res : fullRequest.t) (w1 : World)
    (c : http_Client) (resp : http_Response.t) (e : error) :
  processRequest h
    (cycleTLSRequest.mk _ "cycleTLSRequest"
       (Options.set_Method Method (Options.set_URL URL o))) w
  = (Returned res, w1) →
  clients w1 !! fullRequest.client res = Some c →
  client_Do (trips w1) c (fullRequest.req res) = inr resp →
  ioutil_ReadAll (http_Response.Body resp) = inl e →
  Do h URL o Method w
  = (Returned (Response.zero, Some e),
     set_logs (λ l, l ++ ["Parse Bytes" +:+ Error e; "Request Failed: " +:+ Error e])
              (set_trips S w1)).
Proof.
  intros Hreq Hc Hdo Hread. unfold Do. rewrite (bind_step _ _ _ _ _ Hreq).
  unfold dispatcher, bind, deref_client, round_trip. rewrite Hc. simpl.
  rewrite Hdo, Hread. simpl. unfold set_logs. simpl. by rewrite <- app_assoc.
Qed.

(** X16.  A response that Do returns bears the identifier "cycleTLSRequest"
    when the error is nil, and is the zero response when it is not. *)
Theorem Do_response_identifier (h : CycleTLS.t) (URL : string) (o : Options.t)
    (Method : string) (w : World) (response : Response.t) (err : option error)
    (w' : World) :
  Do h URL o Method w = (Returned (response, err), w') →
  match err with
  | None => Response.RequestID response = "cycleTLSRequest"
  | Some _ => response = Response.zero
  end.
Proof.
  intros Hdo. unfold Do in Hdo.
  apply bind_Returned in Hdo as (res & w1 & Hreq & Hdo).
  apply bind_Returned in Hdo as ([response' err'] & w2 & Hdisp & Hdo).
  destruct (processRequest_Returned _ _ _ _ _ Hreq) as (_ & _ & _ & _ & Hopt & _).
  assert (Hlive : is_Some (clients w1 !! fullRequest.client res)).
  { unfold dispatcher, bind, deref_client in Hdisp.
    destruct (clients w1 !! fullRequest.client res); [eauto|discriminate]. }
  destruct (dispatcher_returns res w1 Hlive)
    as (response2 & err2 & w3 & Hdisp2 & _ & _ & _ & _ & Hid).
  rewrite Hdisp in Hdisp2. injection Hdisp2 as <- <- <-.
  simpl in Hdo. destruct err' as [e|]; injection Hdo as <- <- <-; [done|].
  by rewrite Hid, Hopt.
Qed.

(** X17.  Init without the pool requested returns a handle with nil
    channels and a fresh, empty cache map; it starts no pool and writes no
    log line.  Queue through such a handle never returns: when the request
    is built, the send on the nil request channel blocks for ever. *)
Theorem Init_plain_handle (workers : list bool) (w : World) :
  workers !! 0 ≠ Some true →
  ∃ h w',
    Init workers w = (Returned h, w') ∧
    h = CycleTLS.mk None None (Some (ncaches w)) ∧
    caches w' (ncaches w) = ∅ ∧
    pools w' = pools w ∧ logs w' = logs w ∧ nchans w' = nchans w ∧
    ∀ (URL : string) (o : Options.t) (Method : string) (w0 : World),
      (∀ w1, Queue h URL o Method w0 ≠ (Returned tt, w1)) ∧
      (∀ fr w1,
         processRequest h
           (cycleTLSRequest.mk _ "Queued Request"
              (Options.set_Method Method (Options.set_URL URL o))) w0
         = (Returned fr, w1) →
         Queue h URL o Method w0 = (Blocked, w1)).
Proof.
  intros Hw.
  assert (Hinit : Init workers w
                  = (Returned (CycleTLS.mk None None (Some (ncaches w))),
                     set_ncaches S (set_caches (λ s, <[ncaches w := ∅]> s) w))).
  { unfold Init. destruct workers as [|[] rest]; [done| |done]. by destruct Hw. }
  eexists _, _. split; [exact Hinit|]. split; [done|]. simpl.
  split; [by rewrite fn_lookup_insert|]. split; [done|]. split; [done|]. split; [done|].
  intros URL o Method w0. split.
  - intros w1 Hq. unfold Queue in Hq.
    apply bind_Returned in Hq as (fr & w2 & _ & Hsend). discriminate Hsend.
  - intros fr w1 Hreq. unfold Queue. by rewrite (bind_step _ _ _ _ _ Hreq).
Qed.

(** X18.  Init with the pool requested makes two distinct channels, starts
    one pool on them and writes one log line.  Close through the handle it
    returns closes both channels, provided neither was closed, and a second
    Close then panics. *)
Theorem Init_pool_then_Close (workers : list bool) (w : World) (closed : gset chan) :
  workers !! 0 = Some true →
  nchans w ∉ closed → S (nchans w) ∉ closed →
  ∃ h w' closed',
    Init workers w = (Returned h, w') ∧
    h = CycleTLS.mk (Some (nchans w)) (Some (S (nchans w))) None ∧
    pools w' = pools w ++ [(nchans w, S (nchans w))] ∧
    logs w' = logs w ++ ["Worker Pool Started"] ∧
    nchans w' = S (S (nchans w)) ∧
    Close h closed = (Returned tt, closed') ∧
    closed' = {[S (nchans w)]} ∪ ({[nchans w]} ∪ closed) ∧
    Close h closed' = (Panicked (RuntimeError "close of closed channel"), closed').
Proof.
  intros Hw Hreq Hresp. destruct workers as [|b rest]; [discriminate|].
  injection Hw as ->. eexists _, _, _. split; [reflexivity|]. split; [reflexivity|].
  simpl. split; [done|]. split; [done|]. split; [done|].
  unfold Close, close_chan. simpl.
  rewrite (decide_False (P := nchans w ∈ closed)) by done.
  rewrite (decide_False (P := S (nchans w) ∈ {[nchans w]} ∪ closed))
    by (apply not_elem_of_union; split; [apply not_elem_of_singleton; lia|done]).
  split; [reflexivity|]. split; [reflexivity|].
  rewrite (decide_True (P := nchans w ∈ _)) by set_solver. done.
Qed.

(** X19.  Close through a handle that has no pool panics at its first
    statement, the close of the nil request channel, and closes nothing;
    and whenever a Close returned, the next Close through the same handle
    panics. *)
Theorem Close_only_once_and_only_with_pool (h : CycleTLS.t) (closed : gset chan) :
  (CycleTLS.ReqChan h = None →
   Close h closed = (Panicked (RuntimeError "close of nil channel"), closed))
  ∧ (∀ closed',
       Close h closed = (Returned tt, closed') →
       Close h closed' = (Panicked (RuntimeError "close of closed channel"), closed')).
Proof.
  split.
  - intros Hnil. unfold Close, close_chan. by rewrite Hnil.
  - intros closed'. unfold Close, close_chan.
    destruct (CycleTLS.ReqChan h) as [req|]; [|discriminate].
    destruct (decide (req ∈ closed)); [discriminate|].
    destruct (CycleTLS.RespChan h) as [resp|]; [|discriminate].
    destruct (decide (resp ∈ {[req]} ∪ closed)); [discriminate|].
    intros [= <-]. rewrite decide_True by set_solver. done.
Qed.
End CallsMore.

(** ** More on the worker and the pool (lines 260-277) *)

Section WorkerMore.
Context `{GoLib}.

(** X20.  While the result queue is open and somebody receives on it, a
    worker answers the requests it receives one by one and in the order it
    received them: it returns having handed over as many responses as it
    received requests, each bearing the identifier of its request or being
    the zero response, and it builds no client.  On a closed result queue
    its first send panics, and with nobody to receive its first send waits:
    nothing is handed over then. *)
Theorem worker_answers_in_order (received : list fullRequest.t) (respChan : chan)
    (w : World) :
  Forall (λ fr, is_Some (clients w !! fullRequest.client fr)) received →
  (respChan ∉ closed w → respChan ∈ receiving w →
   ∃ responses w',
     worker received respChan w = (Returned tt, w') ∧
     delivered w' = delivered w ++ ((λ r, (respChan, r)) <$> responses) ∧
     Forall2 (λ fr r, Response.RequestID r
                      = cycleTLSRequest.RequestID (fullRequest.options fr)
                      ∨ r = Response.zero) received responses ∧
     clients w' = clients w ∧ submitted w' = submitted w)
  ∧ (received ≠ [] → respChan ∈ closed w →
     ∃ w', worker received respChan w
           = (Panicked (RuntimeError "send on closed channel"), w') ∧
           delivered w' = delivered w)
  ∧ (received ≠ [] → respChan ∉ closed w → respChan ∉ receiving w →
     ∃ w', worker received respChan w = (Blocked, w') ∧
           delivered w' = delivered w).
Proof.
  intros Hlive. split_and!.
  - revert w Hlive. induction received as [|res rest IH]; intros w Hlive Hopen Hread.
    { exists [], w. simpl. by rewrite app_nil_r. }
    apply Forall_cons in Hlive as [Hres Hrest].
    destruct (dispatcher_returns res w Hres)
      as (response & err & w1 & Hdisp & Hcl & _ & Hdel & Hsub & Hid).
    destruct (worker_turn_send respChan _ _ _ _ _ Hdisp) as (Hturn & Hclo & Hrc).
    destruct (log_failure_frame err w1) as (Hcl1 & _ & Hsub1 & Hdel1 & _).
    rewrite send_response_served in Hturn by congruence.
    destruct (IH (set_delivered (λ l, l ++ [(respChan, response)])
                    (log_failure err w1)))
      as (responses & w' & Hrun & Hdel' & Hall & Hcl' & Hsub').
    { simpl. by rewrite Hcl1, Hcl. }
    { simpl. congruence. }
    { simpl. congruence. }
    exists (response :: responses), w'. split.
    + simpl. by rewrite (bind_step _ _ _ _ _ Hturn).
    + simpl in Hdel', Hcl', Hsub'.
      rewrite Hdel', Hdel1, Hdel, Hcl', Hcl1, Hcl, Hsub', Hsub1, Hsub.
      rewrite <- app_assoc. split_and!; try done.
      constructor; [|done]. destruct err; auto.
  - intros Hne Hclosed. destruct received as [|res rest]; [done|].
    apply Forall_cons in Hlive as [Hres _].
    destruct (dispatcher_returns res w Hres)
      as (response & err & w1 & Hdisp & _ & _ & Hdel & _).
    destruct (worker_turn_send respChan _ _ _ _ _ Hdisp) as (Hturn & Hclo & Hrc).
    destruct (log_failure_frame err w1) as (_ & _ & _ & Hdel1 & _).
    exists (log_failure err w1). split; [|congruence].
    simpl. unfold bind. rewrite Hturn. unfold send_response.
    by rewrite decide_True by congruence.
  - intros Hne Hopen Hread. destruct received as [|res rest]; [done|].
    apply Forall_cons in Hlive as [Hres _].
    destruct (dispatcher_returns res w Hres)
      as (response & err & w1 & Hdisp & _ & _ & Hdel & _).
    destruct (worker_turn_send respChan _ _ _ _ _ Hdisp) as (Hturn & Hclo & Hrc).
    destruct (log_failure_frame err w1) as (_ & _ & _ & Hdel1 & _).
    exists (log_failure err w1). split; [|congruence].
    simpl. unfold bind. rewrite Hturn. unfold send_response.
    by rewrite !decide_False by congruence.
Qed.

(** X21.  The pool of workerPool_size workers never holds more than that
    many requests: in every state it reaches alive, the requests handed over
    to workers are at most 100 more than the results handed over; and once
    every worker holds a request or its response, no worker takes a further
    request from a caller of Queue before a result is received. *)
Theorem pool_holds_at_most_100 (reqChan respChan : chan) (w0 : World) (p : pool) :
  caches_live w0 →
  rtc (pool_step reqChan respChan) (pool_start w0) p →
  alive p = true →
  (∃ taken results,
     handed_since reqChan w0 (world p) taken ∧
     results_since respChan w0 (world p) results ∧
     (length results ≤ length taken)%nat ∧
     (length taken ≤ length results + 100)%nat)
  ∧ (busy (workers p) = 100 →
     ∀ p', pool_work_step reqChan respChan p p' →
           offered p' = offered p ∧
           submitted (world p') = submitted (world p)).
Proof.
  intros Hlive Hsteps Halive.
  destruct (pool_invariant_steps _ _ _ _ Hlive Hsteps Halive)
    as (_ & Hlen & _ & _ & _ & taken & results & Htaken & Hres & Hcount & _).
  pose proof (busy_le_length (workers p)) as Hle.
  change workerPool_size with 100 in Hlen.
  split.
  - exists taken, results. split_and!; try done; lia.
  - intros Hfull p' Hstep.
    destruct Hstep as [i l1 res l2 ws w Hopen Hi
                      |i q ws w res response w' Hi Hrun
                      |i q ws w response w' Hi Hsend];
      cbn [offered workers world] in *.
    + assert (Hone : in_flight Receiving = 1)
        by (apply (busy_full ws i); [lia|done]).
      discriminate Hone.
    + by destruct (worker_dispatch_frame _ _ _ _ Hrun) as (_ & _ & ? & _).
    + by apply send_response_Returned in Hsend as (_ & _ & ->).
Qed.
End WorkerMore.

(** ** The cache over time *)

Section CacheMore.
Context `{GoLib}.

(** X22.  The cache never evicts and never overwrites: over any steps of
    the program, a host keeps the client pointer it was cached with, and
    the pointer keeps pointing to the same client. *)
Theorem cache_entries_persist (w w' : World) :
  rtc program_step w w' →
  (∀ (r : mapref) (host : string) (c : ptr),
     caches w r !! host = Some c → caches w' r !! host = Some c) ∧
  (∀ (p : ptr) (cl : http_Client),
     clients w !! p = Some cl → clients w' !! p = Some cl).
Proof. intros Hsteps. exact (program_steps_keep w w' Hsteps). Qed.
End CacheMore.

(** * The properties on the sample library *)

Import Sample.

Lemma sample_range_visits_all : @range_visits_all sample_types sample_lib.
Proof.
  intros V n m. simpl. unfold sample_range.
  destruct (Nat.even n); [done|]. apply reverse_Permutation.
Qed.

Lemma backwards_range_visits_all : @range_visits_all sample_types backwards_lib.
Proof. intros V n m. simpl. apply reverse_Permutation. Qed.

Lemma plain_world_live : caches_live plain_world.
Proof.
  intros r host c. simpl. unfold insert, fn_insert.
  destruct (decide (0 = r)); rewrite lookup_empty; discriminate.
Qed.

Lemma pool_world_live : caches_live pool_world.
Proof.
  intros r host c. simpl. unfold insert, fn_insert.
  destruct (decide (0 = r)); rewrite lookup_empty; discriminate.
Qed.

(** Init without arguments makes [plain_handle]. *)
Example Init_plain : Init [] world0 = (Returned plain_handle, plain_world).
Proof. reflexivity. Qed.

(** C6 on the sample library: Accept and User-Agent under the list
    user-agent, accept. *)
Lemma orderHeaders_precedence_order_witness :
  ∃ w', orderHeaders ["user-agent"; "accept"]
                     {[ "Accept" := "*/*"; "User-Agent" := "X" ]} plain_world
        = (Returned ["user-agent"; "accept"], w').
Proof.
  destruct (orderHeaders_precedence_order sample_range_visits_all) as [_ Hexample].
  apply Hexample; reflexivity.
Defined.

(** C8 on the sample libraries: forwards and backwards visits agree. *)
Lemma orderHeaders_deterministic_witness :
  ∃ names,
    (@orderHeaders _ sample_lib ["accept"; "user-agent"; "x-id"]
       {[ "Accept" := "*/*"; "User-Agent" := "X"; "X-Id" := "7"; "x-id" := "8" ]}
       plain_world).1 = Returned names ∧
    (@orderHeaders _ backwards_lib ["accept"; "user-agent"; "x-id"]
       {[ "Accept" := "*/*"; "User-Agent" := "X"; "X-Id" := "7"; "x-id" := "8" ]}
       pool_world).1 = Returned names.
Proof.
  apply (orderHeaders_deterministic sample_lib backwards_lib);
    [reflexivity | exact sample_range_visits_all | exact backwards_range_visits_all].
Defined.

(** C1 on the sample library: a host that refuses the connection. *)
Lemma Do_error_only_from_body_read_witness :
  Do plain_handle "http://refused.test/x" (options_of ∅ [] "UA/1" "") "get" plain_world
  = (Returned
       (Response.mk "cycleTLSRequest" 502
          ("syscall error: connection refused-> " +:+ newline
             +:+ "connect: connection refused") ∅, None),
     mkWorld _ [mk_client "" 0 false "UA/1" ""]
               (<[0 := {[ "refused.test" := 0 ]}]> (<[0 := ∅]> (λ _, ∅)))
               1 0 [] [] [] [] 27 1 ∅ ∅).
Proof.
  destruct (Do_error_only_from_body_read plain_handle "http://refused.test/x"
              (options_of ∅ [] "UA/1" "") "get" plain_world) as [_ Hfail].
  destruct (Hfail plain_world_live _ _ eq_refl) as (c & Hc & Hdo).
  rewrite (Hdo ErrConnectionRefused); [reflexivity|reflexivity].
Defined.

(** C2, counterexample: through the handle of Init, Do on a URL that does
    not parse panics, and Do with a proxy that newClient rejects exits the
    process; neither returns an error to the caller. *)
Lemma Do_bad_input_ends_process :
  (Do plain_handle ":foo" (options_of ∅ [] "UA/1" "") "GET" plain_world).1
  = Panicked (PanicError ErrMissingScheme)
  ∧ (Do plain_handle "http://example.com/" (options_of ∅ [] "UA/1" ":proxy") "GET"
        plain_world).1
    = Exited 1.
Proof. split; reflexivity. Qed.

(** C2 on the sample library. *)
Lemma processRequest_aborts_on_bad_input_witness :
  processRequest plain_handle
    (request_of "cycleTLSRequest" ":foo" (options_of ∅ [] "UA/1" "") "GET") plain_world
  = (Panicked (PanicError ErrMissingScheme), plain_world)
  ∧ processRequest plain_handle
      (request_of "cycleTLSRequest" "http://example.com/"
                  (options_of ∅ [] "UA/1" ":proxy") "GET") plain_world
    = (Exited 1, set_logs (λ l, l ++ ["invalid proxy URL"]) plain_world).
Proof.
  split.
  - destruct (processRequest_aborts_on_bad_input plain_handle
                (request_of "cycleTLSRequest" ":foo" (options_of ∅ [] "UA/1" "") "GET")
                plain_world) as [Hparse _].
    apply (Hparse ErrMissingScheme). reflexivity.
  - destruct (processRequest_aborts_on_bad_input plain_handle
                (request_of "cycleTLSRequest" "http://example.com/"
                            (options_of ∅ [] "UA/1" ":proxy") "GET")
                plain_world) as [_ Hclient].
    apply (Hclient (url_URL.mk "example.com") ErrBadProxy); reflexivity.
Defined.

(** C3, counterexample: the dispatcher returns an error for a request whose
    body breaks off, and the worker still sends a response for it on the
    result queue, the zero response. *)
Lemma worker_sends_after_error :
  match built_in pool_world "Queued Request" "http://broken.test/" with
  | Some (res, w) =>
      (dispatcher res w).1 = Returned (Response.zero, Some ErrUnexpectedEOF) ∧
      delivered (worker [res] 1 w).2 = [(1, Response.zero)] ∧
      logs (worker [res] 1 w).2
      = ["Parse Bytesunexpected EOF"; "Request Failed: unexpected EOF"]
  | None => False
  end.
Proof. vm_compute. repeat split; reflexivity. Qed.

(** C3 on the sample library: the request whose body breaks off, with the
    result queue open and read. *)
Lemma worker_turn_always_sends_witness :
  match built_in pool_world "Queued Request" "http://broken.test/" with
  | Some (res, w) =>
      ∃ w', worker_turn 1 res w = (Returned tt, w') ∧
            delivered w' = [(1, Response.zero)]
  | None => False
  end.
Proof.
  assert (Hfacts :
    match built_in pool_world "Queued Request" "http://broken.test/" with
    | Some (res, w) =>
        (dispatcher res w).1 = Returned (Response.zero, Some ErrUnexpectedEOF) ∧
        closed w = ∅ ∧ receiving w = {[0; 1]} ∧ delivered w = []
    | None => False
    end) by (vm_compute; repeat split; reflexivity).
  destruct (built_in pool_world "Queued Request" "http://broken.test/")
    as [[res w]|]; [|exact Hfacts].
  destruct Hfacts as (Hx & Hclo & Hrc & Hdel).
  destruct (dispatcher res w) as [x w1] eqn:Hdisp. simpl in Hx. subst x.
  destruct (worker_turn_always_sends 1 res w _ _ _ Hdisp) as (_ & Hsend & _).
  eexists. split.
  - apply Hsend; [rewrite Hclo|rewrite Hrc]; set_solver.
  - destruct (dispatcher_channels _ _ _ _ Hdisp) as (_ & _ & _ & Hdel1).
    simpl. by rewrite Hdel1, Hdel.
Defined.

(** C9 on the sample library. *)
Lemma Init_pool_has_nil_cache_witness :
  ∃ h w',
    Init [true] world0 = (Returned h, w') ∧
    CycleTLS.cacheClients h = None ∧
    Do h "http://example.com/" (options_of ∅ [] "UA/1" "") "GET" w'
    = (Panicked (RuntimeError "assignment to entry in nil map"),
       set_clients (λ l, l ++ [mk_client "" 0 false "UA/1" ""]) w').
Proof.
  destruct (Init_pool_has_nil_cache [true] world0 eq_refl) as (h & w' & Hinit & Hnil & Hcalls).
  exists h, w'. split; [exact Hinit|]. split; [exact Hnil|].
  destruct (Hcalls "http://example.com/" (options_of ∅ [] "UA/1" "") "GET" w')
    as (_ & _ & Hpanic).
  apply (Hpanic (url_URL.mk "example.com")); reflexivity.
Defined.

(** C10 on the sample library: the URL and the method the caller had put
    in the options are gone from the queued request. *)
Lemma Do_Queue_overwrite_URL_Method_witness :
  ∃ res w1 ch w',
    Queue pool_handle "http://example.com/"
      (Options.mk _ "http://preset.test/" "DELETE" {[ "Accept" := "*/*" ]} "" ""
                  "UA/1" "" [] 0 false [] false) "get" pool_world
    = (Returned tt, w') ∧
    processRequest pool_handle
      (cycleTLSRequest.mk _ "Queued Request"
         (Options.mk _ "http://example.com/" "get" {[ "Accept" := "*/*" ]} "" ""
                     "UA/1" "" [] 0 false [] false)) pool_world
    = (Returned res, w1) ∧
    fullRequest.options res
    = cycleTLSRequest.mk _ "Queued Request"
        (Options.mk _ "http://example.com/" "get" {[ "Accept" := "*/*" ]} "" ""
                    "UA/1" "" [] 0 false [] false) ∧
    CycleTLS.ReqChan pool_handle = Some ch ∧
    w' = set_submitted (λ l, l ++ [(ch, res)]) w1.
Proof.
  destruct (Do_Queue_overwrite_URL_Method pool_handle "http://example.com/"
              (Options.mk _ "http://preset.test/" "DELETE" {[ "Accept" := "*/*" ]} "" ""
                          "UA/1" "" [] 0 false [] false) "get") as (_ & Hqueue & _).
  assert (Hret :
    is_returned
      (Queue pool_handle "http://example.com/"
         (Options.mk _ "http://preset.test/" "DELETE" {[ "Accept" := "*/*" ]} "" ""
                     "UA/1" "" [] 0 false [] false) "get" pool_world).1 = true)
    by (vm_compute; reflexivity).
  destruct (Queue pool_handle "http://example.com/"
              (Options.mk _ "http://preset.test/" "DELETE" {[ "Accept" := "*/*" ]} "" ""
                          "UA/1" "" [] 0 false [] false) "get" pool_world)
    as [[[]| | |] w'] eqn:Hq; try discriminate Hret.
  destruct (Hqueue pool_world w' Hq) as (res & w1 & ch & Hreq & Hopt & Hch & Hw').
  by exists res, w1, ch, w'.
Defined.



(** C5 on the sample library: the second request to the host, with another
    user agent, a proxy and a timeout, gets the client of the first. *)
Lemma processRequest_reuses_cached_client_witness :
  ∃ fr1 w1 fr2 w2,
    processRequest plain_handle
      (request_of "cycleTLSRequest" "http://example.com/a"
                  (options_of ∅ [] "UA/1" "") "GET") plain_world
    = (Returned fr1, w1) ∧
    processRequest plain_handle
      (request_of "cycleTLSRequest" "http://example.com/b"
                  (Options.mk _ "" "" ∅ "" "" "UA/2" "http://proxy.test/" [] 30 true
                              [] false) "POST") w1
    = (Returned fr2, w2) ∧
    fullRequest.client fr2 = fullRequest.client fr1 ∧
    clients w2 = clients w1 ∧
    clients w2 !! fullRequest.client fr2 = Some (mk_client "" 0 false "UA/1" "").
Proof.
  set (R1 := request_of "cycleTLSRequest" "http://example.com/a"
                        (options_of ∅ [] "UA/1" "") "GET").
  set (R2 := request_of "cycleTLSRequest" "http://example.com/b"
                        (Options.mk _ "" "" ∅ "" "" "UA/2" "http://proxy.test/" [] 30 true
                                    [] false) "POST").
  destruct (processRequest plain_handle R1 plain_world) as [x1 w1] eqn:Hrun1.
  assert (H1 : ∃ fr1, x1 = Returned fr1 ∧
                      clients w1 !! fullRequest.client fr1
                      = Some (mk_client "" 0 false "UA/1" "")).
  { vm_compute in Hrun1. injection Hrun1 as <- <-. by eexists. }
  destruct H1 as (fr1 & -> & Hcl1).
  destruct (processRequest plain_handle R2 w1) as [x2 w2] eqn:Hrun2.
  destruct (processRequest_reuses_cached_client plain_handle R1 R2
              (url_URL.mk "example.com") (url_URL.mk "example.com")
              plain_world w1 w1 fr1 Hrun1 (rtc_refl _ _) eq_refl eq_refl eq_refl
              x2 w2 Hrun2) as (Hclients & _ & Hsame).
  assert (H2 : ∃ fr2, x2 = Returned fr2).
  { destruct (processRequest_Returned _ _ _ _ _ Hrun1) as (u & r & Hu & Hr & _ & Hc & _).
    injection Hu as <-. injection Hr as <-.
    assert (Hu2 : url_Parse (Options.URL (cycleTLSRequest.Options R2))
                  = inr (url_URL.mk "example.com")) by reflexivity.
    rewrite (processRequest_hit plain_handle R2 w1 _ 0 _ Hu2 eq_refl Hc) in Hrun2.
    unfold finish_request in Hrun2. simpl in Hrun2. injection Hrun2 as <- _. by eexists. }
  destruct H2 as (fr2 & ->).
  destruct (Hsame fr2 eq_refl) as [Hptr Hobj].
  exists fr1, w1, fr2, w2. repeat split; try done. by apply Hobj.
Defined.

(** C7, the defect: a Content-Length header that the caller spells in lower
    case passes the test of line 229 and is set on the outgoing request,
    under its canonical name. *)
Lemma lowercase_content_length_is_sent :
  match processRequest plain_handle
          (request_of "cycleTLSRequest" "http://example.com/"
                      (options_of {[ "content-length" := "5" ]} [] "UA/1" "") "POST")
          plain_world with
  | (Returned fr, _) =>
      Request.Header (fullRequest.req fr) !! "Content-Length" = Some ["5"] ∧
      Request.Header (fullRequest.req fr) !! "Host" = Some ["example.com"] ∧
      Request.Header (fullRequest.req fr) !! "User-Agent" = Some ["UA/1"]
  | _ => False
  end.
Proof. vm_compute. repeat split; reflexivity. Qed.

(** The exact spelling is left out. *)
Example exact_Content_Length_is_dropped :
  match processRequest plain_handle
          (request_of "cycleTLSRequest" "http://example.com/"
                      (options_of {[ "Content-Length" := "5" ]} [] "UA/1" "") "POST")
          plain_world with
  | (Returned fr, _) => Request.Header (fullRequest.req fr) !! "Content-Length" = None
  | _ => False
  end.
Proof. vm_compute. reflexivity. Qed.

(** * The further properties on the sample library *)

Lemma plain_world_unshared : clients_unshared plain_world.
Proof.
  intros r1 r2 h1 h2 c. simpl. unfold insert, fn_insert.
  destruct (decide (0 = r1)); rewrite lookup_empty; discriminate.
Qed.

Lemma live_client_spec (w : World) (fr : fullRequest.t) :
  live_client w fr = true → is_Some (clients w !! fullRequest.client fr).
Proof.
  unfold live_client. destruct (clients w !! fullRequest.client fr); [eauto|discriminate].
Qed.

(** X1 on a header map visited backwards. *)
Lemma flatten_headers_lookup_witness :
  let Header : http_Header :=
    {[ "Content-Type" := ["text/plain"]; "Set-Cookie" := ["a=1"; "b=2"];
       "Via" := ["p1"; "p2"]; "X-Empty" := [] ]} in
  flatten_headers (reverse (map_to_list Header)) !! "Set-Cookie" = Some "a=1/,/b=2" ∧
  flatten_headers (reverse (map_to_list Header)) !! "Via" = Some "p2" ∧
  flatten_headers (reverse (map_to_list Header)) !! "X-Empty" = None.
Proof.
  intros Header.
  rewrite !(flatten_headers_lookup Header (reverse (map_to_list Header)) _
              (reverse_Permutation _)).
  repeat split; reflexivity.
Defined.

(** X2 on the sample library: a host that answers 200. *)
Lemma dispatcher_success_witness :
  match built_in pool_world "cycleTLSRequest" "http://example.com/" with
  | Some (res, w) =>
      ∃ headers w',
        dispatcher res w
        = (Returned (Response.mk "cycleTLSRequest" 200 "ok" headers, None), w') ∧
        headers !! "Set-Cookie" = Some "a=1/,/b=2" ∧
        headers !! "Content-Type" = Some "text/plain" ∧
        headers !! "Via" = None
  | None => False
  end.
Proof.
  pose (resp := http_Response.mk _ 200
                  ({[ "Content-Type" := ["text/plain"];
                      "Set-Cookie" := ["a=1"; "b=2"] ]} : http_Header)
                  (inr "ok" : io_ReadCloser)).
  assert (Hfacts :
    match built_in pool_world "cycleTLSRequest" "http://example.com/" with
    | Some (res, w) =>
        clients w !! fullRequest.client res = Some (mk_client "" 0 false "UA/1" "")
        ∧ client_Do (trips w) (mk_client "" 0 false "UA/1" "") (fullRequest.req res)
          = inr resp
        ∧ cycleTLSRequest.RequestID (fullRequest.options res) = "cycleTLSRequest"
    | None => False
    end) by (vm_compute; repeat split; reflexivity).
  destruct (built_in pool_world "cycleTLSRequest" "http://example.com/")
    as [[res w]|]; [|exact Hfacts].
  destruct Hfacts as (Hc & Hdo & Hid).
  destruct (dispatcher_success res w _ resp "ok" sample_range_visits_all Hc Hdo eq_refl)
    as (headers & Hrun & Hheaders).
  exists headers. eexists. rewrite Hid in Hrun. split; [exact Hrun|].
  rewrite !Hheaders. repeat split; reflexivity.
Defined.

(** X3 on the sample library. *)
Lemma dispatcher_effects_witness :
  match built_in pool_world "cycleTLSRequest" "http://example.com/" with
  | Some (res, w) =>
      clients (dispatcher res w).2 = clients w ∧
      caches (dispatcher res w).2 = caches w ∧
      delivered (dispatcher res w).2 = delivered w
  | None => False
  end.
Proof.
  assert (Hsome : is_some (built_in pool_world "cycleTLSRequest" "http://example.com/")
                  = true) by (vm_compute; reflexivity).
  destruct (built_in pool_world "cycleTLSRequest" "http://example.com/")
    as [[res w]|]; [|discriminate Hsome].
  destruct (dispatcher res w) as [x w'] eqn:Hrun.
  destruct (dispatcher_effects res w x w' Hrun) as (Hcl & Hca & _ & _ & Hdel & _).
  by repeat split.
Defined.

(** X4 on the sample library: get and GET. *)
Lemma Do_method_upper_case_witness :
  Do plain_handle "http://example.com/" (options_of ∅ [] "UA/1" "") "get" plain_world
  = Do plain_handle "http://example.com/" (options_of ∅ [] "UA/1" "") "GET" plain_world.
Proof. apply Do_method_upper_case. reflexivity. Defined.

(** X5 on the sample library: a method with a space in it. *)
Lemma processRequest_NewRequest_error_witness :
  processRequest plain_handle
    (request_of "cycleTLSRequest" "http://example.com/" (options_of ∅ [] "UA/1" "")
                "bad method") plain_world
  = (Exited 1,
     set_logs (λ l, l ++ ["net/http: invalid method"])
       (set_caches (λ s, <[0 := <["example.com" := 0]> (s 0)]> s)
          (set_clients (λ l, l ++ [mk_client "" 0 false "UA/1" ""]) plain_world))).
Proof.
  destruct (processRequest_NewRequest_error plain_handle
              (request_of "cycleTLSRequest" "http://example.com/"
                          (options_of ∅ [] "UA/1" "") "bad method")
              plain_world (url_URL.mk "example.com") 0 ErrInvalidMethod)
    as [_ Hmiss]; [reflexivity..|].
  apply (Hmiss (mk_client "" 0 false "UA/1" "")); reflexivity.
Defined.

(** X6 on the sample library. *)
Lemma processRequest_effects_witness :
  let run := processRequest plain_handle
               (request_of "cycleTLSRequest" "http://example.com/"
                           (options_of ∅ ["accept"; "user-agent"] "UA/1" "") "GET")
               plain_world in
  trips run.2 = 0 ∧ submitted run.2 = [] ∧ delivered run.2 = [] ∧ run.1 ≠ Blocked ∧
  ∀ fr, run.1 = Returned fr → logs run.2 = [] ∧ ranges run.2 = 3.
Proof.
  intros run. destruct run as [x w'] eqn:Hrun. subst run.
  destruct (processRequest_effects _ _ _ _ _ Hrun)
    as (Ht & Hs & Hd & _ & _ & _ & _ & Hnb & Hret).
  simpl. split_and!; try done.
Defined.

(** X7 on the sample library. *)
Lemma processRequest_keeps_cache_sound_witness :
  let run := processRequest plain_handle
               (request_of "cycleTLSRequest" "http://example.com/"
                           (options_of ∅ [] "UA/1" "") "GET") plain_world in
  caches_live run.2 ∧ clients_unshared run.2.
Proof.
  intros run. destruct run as [x w'] eqn:Hrun. subst run.
  exact (processRequest_keeps_cache_sound _ _ _ _ _
           plain_world_live plain_world_unshared Hrun).
Defined.

(** X8 on the sample library. *)
Lemma processRequest_first_request_builds_witness :
  ∃ fr w',
    processRequest plain_handle
      (request_of "cycleTLSRequest" "http://example.com/"
                  (Options.mk _ "" "" ∅ "" "771,4865" "UA/2" "http://proxy.test/" [] 30 true
                              [] false) "GET") plain_world
    = (Returned fr, w') ∧
    fullRequest.client fr = 0 ∧
    clients w' = [mk_client "771,4865" 30 true "UA/2" "http://proxy.test/"] ∧
    caches w' 0 !! "example.com" = Some 0.
Proof.
  set (R := request_of "cycleTLSRequest" "http://example.com/"
              (Options.mk _ "" "" ∅ "" "771,4865" "UA/2" "http://proxy.test/" [] 30 true
                          [] false) "GET").
  assert (Hret : is_returned (processRequest plain_handle R plain_world).1 = true)
    by (vm_compute; reflexivity).
  destruct (processRequest plain_handle R plain_world) as [[fr| | |] w'] eqn:Hrun;
    try discriminate Hret.
  destruct (processRequest_first_request_builds plain_handle R plain_world
              (url_URL.mk "example.com") fr w')
    as (r & built & Hr & Hnew & Hc & Hcl & _ & Hca); [reflexivity..|exact Hrun|].
  injection Hr as <-. injection Hnew as <-.
  exists fr, w'. rewrite Hcl, Hca, Hc. repeat split; try done.
Defined.

(** X9 on the sample library: the caller's host and User-Agent lose. *)
Lemma processRequest_Host_UserAgent_witness :
  ∃ fr w',
    processRequest plain_handle
      (request_of "cycleTLSRequest" "http://example.com/"
                  (options_of {[ "host" := "evil.test"; "User-Agent" := "caller" ]} []
                              "UA/1" "") "GET") plain_world
    = (Returned fr, w') ∧
    Request.Header (fullRequest.req fr) !! "Host" = Some ["example.com"] ∧
    Request.Header (fullRequest.req fr) !! "User-Agent" = Some ["UA/1"].
Proof.
  set (R := request_of "cycleTLSRequest" "http://example.com/"
              (options_of {[ "host" := "evil.test"; "User-Agent" := "caller" ]} []
                          "UA/1" "") "GET").
  assert (Hret : is_returned (processRequest plain_handle R plain_world).1 = true)
    by (vm_compute; reflexivity).
  destruct (processRequest plain_handle R plain_world) as [[fr| | |] w'] eqn:Hrun;
    try discriminate Hret.
  destruct (processRequest_Host_UserAgent plain_handle R plain_world fr w')
    as (u & Hu & Hhost & Hua); [reflexivity..|exact Hrun|].
  injection Hu as <-. by exists fr, w'.
Defined.

(** X10 on the sample library. *)
Lemma processRequest_header_order_witness :
  ∃ fr w',
    processRequest plain_handle
      (request_of "cycleTLSRequest" "http://example.com/"
                  (options_of {[ "Accept" := "*/*"; "User-Agent" := "X" ]}
                              ["User-Agent"; "Accept"] "UA/1" "") "GET") plain_world
    = (Returned fr, w') ∧
    Request.Header (fullRequest.req fr) !! "Header-Order:"
    = Some ["user-agent"; "accept"].
Proof.
  set (R := request_of "cycleTLSRequest" "http://example.com/"
              (options_of {[ "Accept" := "*/*"; "User-Agent" := "X" ]}
                          ["User-Agent"; "Accept"] "UA/1" "") "GET").
  assert (Hret : is_returned (processRequest plain_handle R plain_world).1 = true)
    by (vm_compute; reflexivity).
  destruct (processRequest plain_handle R plain_world) as [[fr| | |] w'] eqn:Hrun;
    try discriminate Hret.
  pose proof (processRequest_header_order plain_handle R plain_world fr w'
                sample_range_visits_all) as Horder.
  simpl in Horder. exists fr, w'. split; [done|].
  rewrite Horder; [by vm_compute| |done|done|done].
  intros k Hk. set_unfold in Hk. destruct Hk as [->| ->]; vm_compute; discriminate.
Defined.

(** X11 on the sample library. *)
Lemma processRequest_pseudo_header_order_witness :
  ∃ fr w',
    processRequest plain_handle
      (request_of "cycleTLSRequest" "http://example.com/"
                  (options_of {[ "Accept" := "*/*"; "User-Agent" := "X" ]} []
                              "UA/1" "") "GET") plain_world
    = (Returned fr, w') ∧
    Request.Header (fullRequest.req fr) !! "PHeader-Order:"
    = Some [":method"; ":authority"; ":scheme"; ":path"].
Proof.
  set (R := request_of "cycleTLSRequest" "http://example.com/"
              (options_of {[ "Accept" := "*/*"; "User-Agent" := "X" ]} []
                          "UA/1" "") "GET").
  assert (Hret : is_returned (processRequest plain_handle R plain_world).1 = true)
    by (vm_compute; reflexivity).
  destruct (processRequest plain_handle R plain_world) as [[fr| | |] w'] eqn:Hrun;
    try discriminate Hret.
  pose proof (processRequest_pseudo_header_order plain_handle R plain_world fr w'
                sample_range_visits_all) as Hpseudo.
  simpl in Hpseudo. exists fr, w'. split; [done|].
  apply Hpseudo; [done| |done|done|done].
  intros k Hk. set_unfold in Hk. destruct Hk as [->| ->]; vm_compute; discriminate.
Defined.

(** X12 on the sample library: a header the default list does not name. *)
Lemma processRequest_passes_header_witness :
  ∃ fr w',
    processRequest plain_handle
      (request_of "cycleTLSRequest" "http://example.com/"
                  (options_of {[ "Accept" := "*/*"; "x-trace-id" := "42" ]} []
                              "UA/1" "") "GET") plain_world
    = (Returned fr, w') ∧
    Request.Header (fullRequest.req fr) !! "X-Trace-Id" = Some ["42"].
Proof.
  set (R := request_of "cycleTLSRequest" "http://example.com/"
              (options_of {[ "Accept" := "*/*"; "x-trace-id" := "42" ]} []
                          "UA/1" "") "GET").
  assert (Hret : is_returned (processRequest plain_handle R plain_world).1 = true)
    by (vm_compute; reflexivity).
  destruct (processRequest plain_handle R plain_world) as [[fr| | |] w'] eqn:Hrun;
    try discriminate Hret.
  pose proof (processRequest_passes_header plain_handle R plain_world fr w'
                "x-trace-id" "42" sample_range_visits_all) as Hpass.
  simpl in Hpass. exists fr, w'. split; [done|].
  apply Hpass; [done|done| |done|done|done].
  intros k' Hk'. set_unfold in Hk'.
  destruct Hk' as [->| ->]; [|done]. vm_compute. discriminate.
Defined.

(** X13 on the sample library. *)
Lemma processRequest_drops_exact_Content_Length_witness :
  ∃ fr w',
    processRequest plain_handle
      (request_of "cycleTLSRequest" "http://example.com/"
                  (options_of {[ "Accept" := "*/*"; "Content-Length" := "5" ]} []
                              "UA/1" "") "POST") plain_world
    = (Returned fr, w') ∧
    Request.Header (fullRequest.req fr) !! "Content-Length" = None.
Proof.
  set (R := request_of "cycleTLSRequest" "http://example.com/"
              (options_of {[ "Accept" := "*/*"; "Content-Length" := "5" ]} []
                          "UA/1" "") "POST").
  assert (Hret : is_returned (processRequest plain_handle R plain_world).1 = true)
    by (vm_compute; reflexivity).
  destruct (processRequest plain_handle R plain_world) as [[fr| | |] w'] eqn:Hrun;
    try discriminate Hret.
  pose proof (processRequest_drops_exact_Content_Length plain_handle R plain_world fr w'
                sample_range_visits_all) as Hdrop.
  simpl in Hdrop. exists fr, w'. split; [done|].
  apply Hdrop; [|done|done|done|done|done].
  intros k Hk Hne. set_unfold in Hk.
  destruct Hk as [->| ->]; [|done]. vm_compute. discriminate.
Defined.

(** X14 on the sample library: the same names with other values. *)
Lemma orderHeaders_values_irrelevant_witness :
  ∃ names,
    (orderHeaders ["accept"; "user-agent"]
       {[ "Accept" := "*/*"; "User-Agent" := "X" ]} plain_world).1 = Returned names ∧
    (orderHeaders ["accept"; "user-agent"]
       {[ "Accept" := "text/html"; "User-Agent" := "Y" ]} pool_world).1 = Returned names.
Proof.
  apply orderHeaders_values_irrelevant; [exact sample_range_visits_all|].
  by rewrite !dom_insert_L, !dom_singleton_L.
Defined.

(** X15 on the sample library: a host that breaks off the body. *)
Lemma Do_body_read_failure_witness :
  ∃ w',
    Do pool_handle "http://broken.test/" (options_of ∅ [] "UA/1" "") "GET" pool_world
    = (Returned (Response.zero, Some ErrUnexpectedEOF), w') ∧
    logs w' = ["Parse Bytesunexpected EOF"; "Request Failed: unexpected EOF"].
Proof.
  set (R := cycleTLSRequest.mk _ "cycleTLSRequest"
              (Options.set_Method "GET"
                 (Options.set_URL "http://broken.test/" (options_of ∅ [] "UA/1" "")))).
  pose (resp := http_Response.mk _ 200
                  ({[ "Content-Type" := ["text/plain"] ]} : http_Header)
                  (inl ErrUnexpectedEOF : io_ReadCloser)).
  assert (Hfacts :
    match processRequest pool_handle R pool_world with
    | (Returned res, w1) =>
        clients w1 !! fullRequest.client res = Some (mk_client "" 0 false "UA/1" "")
        ∧ client_Do (trips w1) (mk_client "" 0 false "UA/1" "") (fullRequest.req res)
          = inr resp
        ∧ logs w1 = []
    | _ => False
    end) by (vm_compute; repeat split; reflexivity).
  destruct (processRequest pool_handle R pool_world) as [[res| | |] w1] eqn:Hrun;
    try exact (False_rect _ Hfacts).
  destruct Hfacts as (Hc & Hdo & Hlogs).
  eexists. split.
  - exact (Do_body_read_failure pool_handle "http://broken.test/"
             (options_of ∅ [] "UA/1" "") "GET" pool_world res w1 _ resp ErrUnexpectedEOF
             Hrun Hc Hdo eq_refl).
  - simpl. by rewrite Hlogs.
Defined.

(** X16 on the sample library. *)
Lemma Do_response_identifier_witness :
  ∃ response w',
    Do plain_handle "http://example.com/" (options_of ∅ [] "UA/1" "") "GET" plain_world
    = (Returned (response, None), w') ∧
    Response.RequestID response = "cycleTLSRequest".
Proof.
  assert (Hret :
    match (Do plain_handle "http://example.com/" (options_of ∅ [] "UA/1" "") "GET"
              plain_world).1 with
    | Returned (_, None) => true
    | _ => false
    end = true) by (vm_compute; reflexivity).
  destruct (Do plain_handle "http://example.com/" (options_of ∅ [] "UA/1" "") "GET"
               plain_world) as [[[response [e|]]| | |] w'] eqn:Hrun;
    try discriminate Hret.
  exists response, w'. split; [done|].
  exact (Do_response_identifier _ _ _ _ _ _ _ _ Hrun).
Defined.

(** X17 on the sample library: Init() and Init(false), then Queue. *)
Lemma Init_plain_handle_witness :
  Init [false] world0 = (Returned plain_handle, plain_world) ∧
  Queue plain_handle "http://example.com/" (options_of ∅ [] "UA/1" "") "GET" plain_world
  = (Blocked,
     (processRequest plain_handle
        (request_of "Queued Request" "http://example.com/" (options_of ∅ [] "UA/1" "")
                    "GET") plain_world).2).
Proof.
  destruct (Init_plain_handle [false] world0) as (h & w' & Hinit & -> & _ & _ & _ & _ & Hq);
    [discriminate|].
  split; [reflexivity|].
  set (R := request_of "Queued Request" "http://example.com/"
              (options_of ∅ [] "UA/1" "") "GET").
  assert (Hret : is_returned (processRequest plain_handle R plain_world).1 = true)
    by (vm_compute; reflexivity).
  destruct (processRequest plain_handle R plain_world) as [[fr| | |] w1] eqn:Hrun;
    try discriminate Hret.
  destruct (Hq "http://example.com/" (options_of ∅ [] "UA/1" "") "GET" plain_world)
    as [_ Hblock].
  exact (Hblock fr w1 Hrun).
Defined.

(** X18 on the sample library. *)
Lemma Init_pool_then_Close_witness :
  ∃ w',
    Init [true] world0 = (Returned (CycleTLS.mk (Some 0) (Some 1) None), w') ∧
    pools w' = [(0, 1)] ∧
    logs w' = ["Worker Pool Started"] ∧
    Close (CycleTLS.mk (Some 0) (Some 1) None) ∅ = (Returned tt, {[1]} ∪ ({[0]} ∪ ∅)) ∧
    Close (CycleTLS.mk (Some 0) (Some 1) None) ({[1]} ∪ ({[0]} ∪ ∅))
    = (Panicked (RuntimeError "close of closed channel"), {[1]} ∪ ({[0]} ∪ ∅)).
Proof.
  destruct (Init_pool_then_Close [true] world0 ∅)
    as (h & w' & closed' & Hinit & -> & Hpools & Hlogs & _ & Hclose & -> & Hagain);
    [reflexivity|set_solver|set_solver|].
  by exists w'.
Defined.

(** X19 on the sample library: Close through the handle of Init(). *)
Lemma Close_only_once_and_only_with_pool_witness :
  Close plain_handle ∅ = (Panicked (RuntimeError "close of nil channel"), ∅) ∧
  Close pool_handle ({[1]} ∪ ({[0]} ∪ ∅))
  = (Panicked (RuntimeError "close of closed channel"), {[1]} ∪ ({[0]} ∪ ∅)).
Proof.
  split.
  - destruct (Close_only_once_and_only_with_pool plain_handle ∅) as [Hnil _].
    apply Hnil. reflexivity.
  - destruct (Close_only_once_and_only_with_pool pool_handle ∅) as [_ Honce].
    apply Honce. reflexivity.
Defined.

(** X20 on the sample library: a worker serves a host that answers, then one
    that breaks off the body, with the result queue open and read. *)
Lemma worker_answers_in_order_witness :
  match built_in pool_world "Queued Request" "http://a.test/" with
  | Some (fr1, w1) =>
      match built_in w1 "Queued Request" "http://broken.test/" with
      | Some (fr2, w2) =>
          ∃ r1 r2 w',
            worker [fr1; fr2] 1 w2 = (Returned tt, w') ∧
            delivered w' = [(1, r1); (1, r2)] ∧
            (Response.RequestID r1 = "Queued Request" ∨ r1 = Response.zero) ∧
            (Response.RequestID r2 = "Queued Request" ∨ r2 = Response.zero)
      | None => False
      end
  | None => False
  end.
Proof.
  assert (Hfacts :
    match built_in pool_world "Queued Request" "http://a.test/" with
    | Some (fr1, w1) =>
        match built_in w1 "Queued Request" "http://broken.test/" with
        | Some (fr2, w2) =>
            live_client w2 fr1 = true ∧ live_client w2 fr2 = true ∧
            delivered w2 = [] ∧
            cycleTLSRequest.RequestID (fullRequest.options fr1) = "Queued Request" ∧
            cycleTLSRequest.RequestID (fullRequest.options fr2) = "Queued Request" ∧
            closed w2 = ∅ ∧ receiving w2 = {[0; 1]}
        | None => False
        end
    | None => False
    end) by (vm_compute; repeat split; reflexivity).
  destruct (built_in pool_world "Queued Request" "http://a.test/")
    as [[fr1 w1]|]; [|exact Hfacts].
  destruct (built_in w1 "Queued Request" "http://broken.test/")
    as [[fr2 w2]|]; [|exact Hfacts].
  destruct Hfacts as (Hl1 & Hl2 & Hdel & Hid1 & Hid2 & Hclo & Hrc).
  destruct (worker_answers_in_order [fr1; fr2] 1 w2) as (Hserved & _).
  { repeat constructor; by apply live_client_spec. }
  destruct Hserved as (responses & w' & Hrun & Hdel' & Hall & _).
  { rewrite Hclo. set_solver. }
  { rewrite Hrc. set_solver. }
  apply Forall2_cons_inv_l in Hall as (r1 & rest & Hr1 & Hall & ->).
  apply Forall2_cons_inv_l in Hall as (r2 & rest' & Hr2 & Hall & ->).
  apply Forall2_nil_inv_l in Hall as ->.
  exists r1, r2, w'. rewrite Hid1 in Hr1. rewrite Hid2 in Hr2.
  rewrite Hdel in Hdel'. done.
Defined.

(** X21 on the sample library: one request queued and received by a
    worker. *)
Lemma pool_holds_at_most_100_witness :
  ∃ p taken results,
    rtc (pool_step 0 1) (pool_start pool_world) p ∧
    alive p = true ∧ busy (workers p) = 1 ∧
    handed_since 0 pool_world (world p) taken ∧
    results_since 1 pool_world (world p) results ∧
    (length results ≤ length taken)%nat ∧
    (length taken ≤ length results + 100)%nat.
Proof.
  assert (Hret :
    is_returned
      (processRequest pool_handle
         (request_of "Queued Request" "http://a.test/"
                     (options_of ∅ [] "UA/1" "") "GET") pool_world).1 = true)
    by (vm_compute; reflexivity).
  destruct (processRequest pool_handle
              (request_of "Queued Request" "http://a.test/"
                          (options_of ∅ [] "UA/1" "") "GET") pool_world)
    as [[fr| | |] w] eqn:Hrun; try discriminate Hret.
  destruct (processRequest_channels _ _ _ _ _ Hrun) as (_ & _ & Hclo & _).
  assert (Hsteps : rtc (pool_step 0 1) (pool_start pool_world)
                     (mkPool [] (<[0 := Dispatching fr]>
                                   (replicate workerPool_size Receiving))
                             (set_submitted (λ l, l ++ [(0, fr)]) w) true)).
  { eapply rtc_l.
    { by eapply (pool_offer 0 1 pool_handle "http://a.test/"
                   (options_of ∅ [] "UA/1" "") "GET"). }
    eapply rtc_l; [|apply rtc_refl].
    apply pool_work. eapply (pool_receive 0 1 0 [] fr []); [|done].
    rewrite Hclo. simpl. set_solver. }
  destruct (pool_holds_at_most_100 0 1 pool_world _ pool_world_live Hsteps eq_refl)
    as [(taken & results & Hhand & Hres & Hle1 & Hle2) _].
  eexists _, taken, results. split; [exact Hsteps|]. by split_and!.
Defined.

(** X22 on the sample library: after a second request to another host, the
    first host is still cached with its client. *)
Lemma cache_entries_persist_witness :
  match built_in pool_world "Queued Request" "http://a.test/" with
  | Some (fr1, w1) =>
      match built_in w1 "Queued Request" "http://b.test/" with
      | Some (fr2, w2) =>
          caches w2 0 !! "a.test" = Some (fullRequest.client fr1) ∧
          clients w2 !! fullRequest.client fr1 = Some (mk_client "" 0 false "UA/1" "")
      | None => False
      end
  | None => False
  end.
Proof.
  assert (Hfacts :
    match built_in pool_world "Queued Request" "http://a.test/" with
    | Some (fr1, w1) =>
        caches w1 0 !! "a.test" = Some (fullRequest.client fr1)
        ∧ clients w1 !! fullRequest.client fr1 = Some (mk_client "" 0 false "UA/1" "")
        ∧ is_some (built_in w1 "Queued Request" "http://b.test/") = true
    | None => False
    end) by (vm_compute; repeat split; reflexivity).
  destruct (built_in pool_world "Queued Request" "http://a.test/")
    as [[fr1 w1]|]; [|exact Hfacts].
  destruct Hfacts as (Hcache & Hclient & Hsome).
  destruct (built_in w1 "Queued Request" "http://b.test/")
    as [[fr2 w2]|] eqn:Hb2; [|discriminate Hsome].
  assert (Hstep : rtc program_step w1 w2).
  { unfold built_in in Hb2.
    destruct (processRequest pool_handle _ w1) as [[fr| | |] w] eqn:Hrun;
      try discriminate Hb2.
    injection Hb2 as <- <-. eapply rtc_l; [|apply rtc_refl].
    by eapply step_processRequest. }
  destruct (cache_entries_persist w1 w2 Hstep) as [Hc Hp].
  split; [by apply Hc|by apply Hp].
Defined.
